(** * Multi-kernel dispatch of the inductor code generator

    A shallow embedding of [torch/_inductor/codegen/multi_kernel.py]:
    the argument-name helpers, the deduplicating registry
    [MultiKernelState], the compile-time handle [MultiKernel] and the
    run-time object [MultiKernelCall], followed by the properties that
    hold of them.

    The code generator's buffers ([IndentedBuffer.splice],
    [generate_kernel_call]), the code cache and [do_bench] live outside
    this file: the header is kept as the sequence of spliced blocks, the
    loader, the benchmark, [TritonFuture.result] and
    [add_numel_to_call_args_and_grid] are parameters. The forwarding
    [MultiKernelCall.run], which enters the loaded glue, is not
    embedded. *)

From Stdlib Require Import QArith.
From stdpp Require Import gmap strings list fin_maps pretty.

Open Scope string_scope.
Open Scope list_scope.

#[local] Set Warnings "-clear-no-such-hyp".

(** ** Python exceptions and results *)

Inductive exn : Type :=
  | AssertionError
  | IndexError
  | ValueError
  | RuntimeError (msg : string).

Inductive result (A : Type) : Type :=
  | Ok (a : A)
  | Raise (e : exn).
Arguments Ok {A} a.
Arguments Raise {A} e.

(** ** Insertion-ordered dictionaries

    A Python [dict] keeps its keys in insertion order; assigning to a key
    already present replaces the value and leaves the key where it is. *)

Module PyDict.
Section Dict.
Context {V : Type}.

Definition t : Type := list (string * V).

Definition empty : t := [].

Fixpoint setitem (k : string) (v : V) (d : t) : t :=
  match d with
  | [] => [(k, v)]
  | (k', v') :: d' =>
      if decide (k = k') then (k', v) :: d' else (k', v') :: setitem k v d'
  end.

(** [d.update(other)] *)
Definition update (d other : t) : t :=
  fold_left (fun acc kv => setitem kv.1 kv.2 acc) other d.

(** [{k: v for k in ks}] *)
Definition comprehension (ks : list string) (v : V) : t :=
  fold_left (fun acc k => setitem k v acc) ks empty.

Definition keys (d : t) : list string := map fst d.
End Dict.
End PyDict.

(** ** Kernels as the code generator sees them *)

Record range_tree : Type := { prefix : string }.

Record kernel : Type := {
  kernel_name : string;
  (** [kernel.args.python_argdefs()]: a triple whose first component is
      the list of formal argument names *)
  python_argdefs : list string * list string * list string;
  (** [kernel.get_call_args()] *)
  get_call_args : list string;
  range_trees : list range_tree;
  inside_reduction : bool
}.

Definition get_kernel_argdefs (k : kernel) : list string :=
  let '(arg_defs, _, _) := python_argdefs k in arg_defs.

Definition get_all_kernel_argdefs (kernels : list kernel) : list string :=
  let argdefs_list := map get_kernel_argdefs kernels in
  let all_argdefs :=
    fold_left
      (fun (all_argdefs : PyDict.t) argdefs =>
         PyDict.update all_argdefs (PyDict.comprehension argdefs tt))
      argdefs_list PyDict.empty in
  PyDict.keys all_argdefs.

Definition numel_name (tree : range_tree) : string := prefix tree +:+ "numel".

Definition get_numel_argdefs (k : kernel) : list string :=
  fold_left
    (fun numel_argdefs tree =>
       if negb (String.eqb (prefix tree) "r") || inside_reduction k
       then numel_argdefs ++ [numel_name tree]
       else numel_argdefs)
    (range_trees k) [].

(** The union computed at the head of [MultiKernel.call_kernel]. *)
Definition call_kernel_all_call_args (kernels : list kernel) : list string :=
  let call_args_list := map get_call_args kernels in
  let all_call_args :=
    fold_left
      (fun (all_call_args : PyDict.t) call_args =>
         PyDict.update all_call_args (PyDict.comprehension call_args tt))
      call_args_list PyDict.empty in
  PyDict.keys all_call_args.

(** ** The result monad and list indexing *)

#[global] Instance result_ret : MRet result := fun _ a => Ok a.
#[global] Instance result_bind : MBind result := fun _ _ f r =>
  match r with
  | Ok a => f a
  | Raise e => Raise e
  end.

(** [l[i]] for a non-negative index *)
Definition py_getitem {A : Type} (l : list A) (i : nat) : result A :=
  match l !! i with
  | Some x => Ok x
  | None => Raise IndexError
  end.

(** ** Generated glue source

    The text spliced into the wrapper header is an f-string over a fixed
    template.  Its holes are kept in a record, [render_glue] fills the
    template. *)

Definition NL : string := String (Ascii.ascii_of_nat 10) EmptyString.

Definition join (sep : string) (l : list string) : string := String.concat sep l.

Record closure_def : Type := {
  closure_name : string;
  (** index [i] of [multi_kernel_call.kernels[i]] *)
  closure_kernel : nat;
  closure_args : list string;
  closure_numels : list string
}.

Record glue : Type := {
  run_args : list string;
  run_numels : list string;
  closures : list closure_def;
  (** the list handed to [run_with_argless_kernels] *)
  dispatched : list string
}.

Definition render_closure (c : closure_def) : list string :=
  [ "    def " +:+ closure_name c +:+ "():";
    "        multi_kernel_call.kernels[" +:+ pretty (closure_kernel c) +:+ "].run("
      +:+ join ", " (closure_args c) +:+ ", "
      +:+ join ", " (closure_numels c) +:+ ", grid=grid, stream=stream)" ].

Definition render_glue (g : glue) : string :=
  join NL
    ([ "";
       "def run(multi_kernel_call, " +:+ join ", " (run_args g) +:+ ", "
         +:+ join ", " (run_numels g) +:+ ", grid, stream):" ]
     ++ concat (map render_closure (closures g))
     ++ [ "    multi_kernel_call.run_with_argless_kernels(["
            +:+ join ", " (dispatched g) +:+ "])";
          "        " ]).

(** The holes of [src_code] in [define_kernel], in evaluation order. *)
Definition src_code_glue (kernels : list kernel) : result glue :=
  let all_argdefs := get_all_kernel_argdefs kernels in
  k0 ← py_getitem kernels 0;
  k1 ← py_getitem kernels 1;
  mret {| run_args := all_argdefs;
          run_numels := get_numel_argdefs k0;
          closures :=
            [ {| closure_name := "call0"; closure_kernel := 0;
                 closure_args := get_kernel_argdefs k0;
                 closure_numels := get_numel_argdefs k0 |};
              {| closure_name := "call1"; closure_kernel := 1;
                 closure_args := get_kernel_argdefs k1;
                 closure_numels := get_numel_argdefs k1 |} ];
          dispatched := ["call0"; "call1"] |}.

Definition src_code (kernels : list kernel) : result string :=
  g ← src_code_glue kernels; mret (render_glue g).

(** ** MultiKernelState *)

Record MultiKernelState : Type := {
  subkernel_to_kernel_name : gmap (list string) string;
  used_names : gset string
}.

(** [V.graph.wrapper_code]: the header buffer, as the sequence of blocks
    spliced into it, and the registry it refers to. *)
Record wrapper_code : Type := {
  header : list string;
  multi_kernel_state : MultiKernelState
}.

Definition MultiKernelState_init : MultiKernelState :=
  {| subkernel_to_kernel_name := ∅; used_names := ∅ |}.

Definition wrapper_init : wrapper_code :=
  {| header := []; multi_kernel_state := MultiKernelState_init |}.

Definition splice (text : string) (w : wrapper_code) : wrapper_code :=
  {| header := header w ++ [text]; multi_kernel_state := multi_kernel_state w |}.

Definition set_state (s : MultiKernelState) (w : wrapper_code) : wrapper_code :=
  {| header := header w; multi_kernel_state := s |}.

Definition multi_kernel_prefix : string := "multi_kernel_".

Definition header_open (multi_kernel_name : string) (kernel_names : list string)
  : string :=
  join NL
    [ "";
      "        " +:+ multi_kernel_name +:+ " = MultiKernelCall([";
      "            " +:+ join ", " kernel_names +:+ ",";
      "        ],";
      "            '''";
      "        " ].

Definition header_close : string :=
  join NL [ ""; "            '''"; "        )"; "        " ].

Definition define_kernel (w : wrapper_code) (kernels : list kernel)
  : result string * wrapper_code :=
  let self := multi_kernel_state w in
  let kernel_names := map kernel_name kernels in
  match subkernel_to_kernel_name self !! kernel_names with
  | Some name => (Ok name, w)
  | None =>
      match py_getitem kernel_names 0 with
      | Raise e => (Raise e, w)
      | Ok first =>
          let multi_kernel_name := multi_kernel_prefix +:+ first in
          if decide (multi_kernel_name ∈ used_names self)
          then (Raise AssertionError, w)
          else
            let self' :=
              {| subkernel_to_kernel_name :=
                   <[kernel_names := multi_kernel_name]>
                     (subkernel_to_kernel_name self);
                 used_names := used_names self ∪ {[multi_kernel_name]} |} in
            let w := set_state self' w in
            match src_code kernels with
            | Raise e => (Raise e, w)
            | Ok src_code =>
                let w := splice (header_open multi_kernel_name kernel_names) w in
                let w := splice src_code w in
                let w := splice header_close w in
                (Ok multi_kernel_name, w)
            end
      end
  end.

(** ** MultiKernel *)

Module MultiKernel.
Record t : Type := {
  kernels : list kernel;
  kernel_name : string
}.

Definition init (w : wrapper_code) (kernels : list kernel)
  : result t * wrapper_code :=
  if decide (2 ≤ length kernels)%nat then
    match define_kernel w kernels with
    | (Ok name, w) => (Ok {| kernels := kernels; kernel_name := name |}, w)
    | (Raise e, w) => (Raise e, w)
    end
  else (Raise AssertionError, w).
End MultiKernel.

(** ** Timings

    [do_bench] returns a duration, a finite float; it is kept as the
    rational it denotes, compared with [<] and [==]. *)

Definition Qltb (x y : Q) : bool := (Qnum x * QDen y <? Qnum y * QDen x)%Z.

(** [min(l)]: the first item is the candidate, a later item replaces it
    when it is strictly smaller. *)
Definition py_min (l : list Q) : result Q :=
  match l with
  | [] => Raise ValueError
  | x :: l' => Ok (fold_left (fun m y => if Qltb y m then y else m) l' x)
  end.

(** [l.index(v)]: the first position holding an item equal to [v]. *)
Fixpoint py_index (l : list Q) (v : Q) : result nat :=
  match l with
  | [] => Raise ValueError
  | x :: l' => if Qeq_bool x v then Ok 0%nat else i ← py_index l' v; mret (S i)
  end.

(** ** MultiKernelCall *)

(** What an invocation of [run_with_argless_kernels] does to the outside:
    a call of [do_bench] on the closure at position [i], or a direct call
    of that closure. *)
Inductive event : Type :=
  | EvBench (i : nat) (rep : Z) (fast_flush : bool)
  | EvCall (i : nat).

Definition is_bench (e : event) : bool :=
  match e with EvBench _ _ _ => true | EvCall _ => false end.

Section Runtime.
Context {World Kernel RunEntry : Type}.

(** A zero-argument closure: it acts on the device and may raise. *)
Definition kernel_call : Type := World → result unit * World.

(** [..utils.do_bench(fn, rep=, fast_flush=)] *)
Variable do_bench : kernel_call → Z → bool → World → result Q * World.

(** [PyCodeCache.load(src_code).run] *)
Variable PyCodeCache_load_run : string → result RunEntry.

(** The device together with the record of what was called on it. *)
Record rt : Type := { world : World; trace : list event }.

Definition M (A : Type) : Type := rt → result A * rt.

#[local] Instance M_ret : MRet M := fun _ a s => (Ok a, s).
#[local] Instance M_bind : MBind M := fun _ _ f m s =>
  match m s with
  | (Ok a, s') => f a s'
  | (Raise e, s') => (Raise e, s')
  end.

Definition lift {A : Type} (r : result A) : M A := fun s => (r, s).

Definition bench (i : nat) (kernel_call : kernel_call) : M Q := fun s =>
  let '(r, w) := do_bench kernel_call 40 true (world s) in
  (r, {| world := w; trace := trace s ++ [EvBench i 40 true] |}).

Definition invoke (i : nat) (kernel_call : kernel_call) : M unit := fun s =>
  let '(r, w) := kernel_call (world s) in
  (r, {| world := w; trace := trace s ++ [EvCall i] |}).

Record MultiKernelCall : Type := {
  _kernels : list Kernel;
  picked_kernel : option nat;
  _run : RunEntry
}.

Definition MultiKernelCall_init (kernels : list Kernel) (src_code : string)
  : result MultiKernelCall :=
  if decide (2 ≤ length kernels)%nat then
    run ← PyCodeCache_load_run src_code;
    mret {| _kernels := kernels; picked_kernel := None; _run := run |}
  else Raise AssertionError.

Definition set_picked_kernel (i : nat) (self : MultiKernelCall)
  : MultiKernelCall :=
  {| _kernels := _kernels self; picked_kernel := Some i; _run := _run self |}.

(** [[do_bench(kernel_call, rep=40, fast_flush=True) for kernel_call in
    kernel_calls]], the closures numbered from [i] *)
Fixpoint timings_from (i : nat) (kernel_calls : list kernel_call)
  : M (list Q) :=
  match kernel_calls with
  | [] => mret []
  | kernel_call :: rest =>
      t ← bench i kernel_call;
      ts ← timings_from (S i) rest;
      mret (t :: ts)
  end.

(** [kernel_calls[i]()] *)
Definition call_picked (i : nat) (kernel_calls : list kernel_call) : M unit :=
  kernel_call ← lift (py_getitem kernel_calls i);
  invoke i kernel_call.

Definition run_with_argless_kernels (self : MultiKernelCall)
    (kernel_calls : list kernel_call) (s : rt)
  : result unit * MultiKernelCall * rt :=
  match picked_kernel self with
  | None =>
      let pick : M nat :=
        timings ← timings_from 0 kernel_calls;
        m ← lift (py_min timings);
        lift (py_index timings m) in
      match pick s with
      | (Raise e, s) => (Raise e, self, s)
      | (Ok i, s) =>
          let self := set_picked_kernel i self in
          let '(r, s) := call_picked i kernel_calls s in
          (r, self, s)
      end
  | Some i =>
      let '(r, s) := call_picked i kernel_calls s in
      (r, self, s)
  end.

(** A later stretch of the program: before each invocation the rest of
    the program acts on the device; an exception raised by an
    invocation is caught by the caller, who goes on. *)
Fixpoint run_many (self : MultiKernelCall)
    (invocations : list ((World → World) * list kernel_call)) (s : rt)
  : MultiKernelCall * rt :=
  match invocations with
  | [] => (self, s)
  | (between, kernel_calls) :: rest =>
      let s := {| world := between (world s); trace := trace s |} in
      let '(_, self, s) := run_with_argless_kernels self kernel_calls s in
      run_many self rest s
  end.

(** Every closure of [calls], benchmarked in order from the device
    state [w], returns a duration; [ts] are the durations and [w'] is
    the device state at the end. *)
Fixpoint benchmarked (calls : list kernel_call) (w : World) (ts : list Q)
    (w' : World) : Prop :=
  match calls, ts with
  | [], [] => w' = w
  | c :: calls, t :: ts =>
      ∃ w1, do_bench c 40 true w = (Ok t, w1) ∧ benchmarked calls w1 ts w'
  | _, _ => False
  end.

(** The invocations of a stretch that reach the closure at index [i]. *)
Definition reaching (i : nat)
    (invocations : list ((World → World) * list kernel_call))
  : list ((World → World) * list kernel_call) :=
  filter (fun inv => (i < length inv.2)%nat) invocations.
End Runtime.

Arguments rt : clear implicits.
Arguments MultiKernelCall : clear implicits.

(** ** MultiKernelCall.kernels

    A slot of [_kernels] holds a compiled kernel or a [TritonFuture] of
    one; [kernel.result()] waits for the compilation and returns the
    kernel, or raises when the compilation failed. *)

Inductive kernel_slot (K F : Type) : Type :=
  | Compiled (k : K)
  | TritonFuture (f : F).
Arguments Compiled {K F} k.
Arguments TritonFuture {K F} f.

Section Futures.
Context {K F RunEntry : Type}.

(** [TritonFuture.result()] *)
Variable future_result : F → result K.

(** The [for i, kernel in enumerate(self._kernels)] loop from position
    [i] on, over a list that is updated in place; a list of length [n]
    is left after at most [n] steps. *)
Fixpoint kernels_loop (steps i : nat) (_kernels : list (kernel_slot K F))
  : result unit * list (kernel_slot K F) :=
  match steps with
  | O => (Ok tt, _kernels)
  | S steps =>
      match _kernels !! i with
      | None => (Ok tt, _kernels)
      | Some (Compiled _) => kernels_loop steps (S i) _kernels
      | Some (TritonFuture f) =>
          match future_result f with
          | Raise e => (Raise e, _kernels)
          | Ok k => kernels_loop steps (S i) (<[i := Compiled k]> _kernels)
          end
      end
  end.

Definition set_kernels (_kernels : list (kernel_slot K F))
    (self : MultiKernelCall (kernel_slot K F) RunEntry)
  : MultiKernelCall (kernel_slot K F) RunEntry :=
  {| _kernels := _kernels; picked_kernel := picked_kernel self;
     _run := _run self |}.

(** The property [kernels]: the value read and the object afterwards. *)
Definition kernels (self : MultiKernelCall (kernel_slot K F) RunEntry)
  : result (list (kernel_slot K F)) * MultiKernelCall (kernel_slot K F) RunEntry :=
  let '(r, _kernels) :=
    kernels_loop (length (_kernels self)) 0 (_kernels self) in
  (match r with Ok _ => Ok _kernels | Raise e => Raise e end,
   set_kernels _kernels self).

(** What a slot holds once its future, if any, has been waited for. *)
Definition resolve_slot (slot : kernel_slot K F) : kernel_slot K F :=
  match slot with
  | Compiled k => Compiled k
  | TritonFuture f =>
      match future_result f with
      | Ok k => Compiled k
      | Raise _ => TritonFuture f
      end
  end.

(** The slot needs no waiting, or its compilation succeeded. *)
Definition resolves (slot : kernel_slot K F) : Prop :=
  match slot with
  | Compiled _ => True
  | TritonFuture f => ∃ k, future_result f = Ok k
  end.

Definition is_compiled (slot : kernel_slot K F) : Prop :=
  match slot with Compiled _ => True | TritonFuture _ => False end.
End Futures.

(** ** MultiKernel.call_kernel

    [add_numel_to_call_args_and_grid] extends the two lists it is given
    and [generate_kernel_call] writes the call; both belong to the
    surrounding code generator. The call site is kept as the arguments
    [generate_kernel_call] receives. *)

Record kernel_call_site (G D : Type) : Type := {
  site_name : string;
  site_call_args : list string;
  site_grid : list G;
  site_device_index : D
}.
Arguments site_name {G D} _.
Arguments site_call_args {G D} _.
Arguments site_grid {G D} _.
Arguments site_device_index {G D} _.

Section CallKernel.
Context {G D : Type}.

(** [kernel.add_numel_to_call_args_and_grid(call_args, grid)]: the two
    lists as it leaves them *)
Variable add_numel_to_call_args_and_grid :
  kernel → list string → list G → list string * list G.

(** [V.graph.scheduler.current_device.index] *)
Variable current_device_index : D.

Definition call_kernel (self : MultiKernel.t) : result (kernel_call_site G D) :=
  let all_call_args := call_kernel_all_call_args (MultiKernel.kernels self) in
  let grid := [] in
  k0 ← py_getitem (MultiKernel.kernels self) 0;
  let '(all_call_args, grid) :=
    add_numel_to_call_args_and_grid k0 all_call_args grid in
  mret {| site_name := MultiKernel.kernel_name self;
          site_call_args := all_call_args;
          site_grid := grid;
          site_device_index := current_device_index |}.
End CallKernel.

(** * Vocabulary of the statements *)

(** One step of the union: a name not yet seen goes to the end. *)
Definition add_key (seen : list string) (k : string) : list string :=
  if decide (k ∈ seen) then seen else seen ++ [k].

Definition add_keys (l seen : list string) : list string :=
  fold_left add_key l seen.

(** [a] is met in [flat] before any [b] is. *)
Definition first_seen_before (flat : list string) (a b : string) : Prop :=
  ∃ p, flat !! p = Some a ∧ ∀ q, flat !! q = Some b → (p < q)%nat.

(** Earlier in the union means first seen earlier in the input. *)
Definition by_first_occurrence (flat u : list string) : Prop :=
  ∀ i j a b, u !! i = Some a → u !! j = Some b → (i < j)%nat →
    first_seen_before flat a b.

(** [u] is the duplicate-free union of [lists], its names ordered by
    where they are first met when the lists are read in order. *)
Definition ordered_union_of (lists : list (list string)) (u : list string) : Prop :=
  NoDup u
  ∧ (∀ x, x ∈ u ↔ ∃ l, l ∈ lists ∧ x ∈ l)
  ∧ by_first_occurrence (concat lists) u.

(** A reduction dimension is threaded through only inside a reduction. *)
Definition numel_included (k : kernel) (tree : range_tree) : Prop :=
  prefix tree ≠ "r" ∨ inside_reduction k = true.

#[global] Instance numel_included_dec k tree : Decision (numel_included k tree).
Proof. unfold numel_included. apply _. Defined.

Definition registry (w : wrapper_code) : gmap (list string) string :=
  subkernel_to_kernel_name (multi_kernel_state w).

Definition assigned_names (w : wrapper_code) : gset string :=
  used_names (multi_kernel_state w).

(** The name tuple that identifies a group. *)
Definition group_key (kernels : list kernel) : list string :=
  map kernel_name kernels.

(** The block of three splices that defines one dispatcher. *)
Definition dispatcher_block (name : string) (kernels : list kernel) (g : glue)
  : list string :=
  [ header_open name (group_key kernels); render_glue g; header_close ].

(** Closure [i] of the glue runs kernel [i] of the group on that kernel's
    own arguments and iteration sizes. *)
Definition closure_for (kernels : list kernel) (i : nat) (c : closure_def) : Prop :=
  closure_name c = "call" +:+ pretty i
  ∧ closure_kernel c = i
  ∧ ∃ k, kernels !! i = Some k
         ∧ closure_args c = get_kernel_argdefs k
         ∧ closure_numels c = get_numel_argdefs k.

(** A run of [define_kernel] calls; a caller that catches an exception
    goes on with the next group. *)
Fixpoint define_kernels (w : wrapper_code) (groups : list (list kernel))
  : list (result string) * wrapper_code :=
  match groups with
  | [] => ([], w)
  | kernels :: rest =>
      let '(r, w) := define_kernel w kernels in
      let '(rs, w) := define_kernels w rest in
      (r :: rs, w)
  end.

(** The name of the first kernel of a group, if it has one. *)
Definition first_name (kernels : list kernel) : option string :=
  group_key kernels !! 0%nat.

(** Every assigned dispatcher name comes from a first name in [seen]. *)
Definition names_from (seen : list (option string)) (w : wrapper_code) : Prop :=
  ∀ n, n ∈ assigned_names w →
    ∃ first, n = multi_kernel_prefix +:+ first ∧ Some first ∈ seen.

(** The group is registered already, or the name it would be given is
    not taken. *)
Definition registrable (w : wrapper_code) (kernels : list kernel) : Prop :=
  is_Some (registry w !! group_key kernels)
  ∨ ∃ first, first_name kernels = Some first
             ∧ multi_kernel_prefix +:+ first ∉ assigned_names w.

(** The position of the least duration, the first one among equals. *)
Definition stable_argmin (ts : list Q) (i : nat) : Prop :=
  ∃ t, ts !! i = Some t
       ∧ (∀ j t', ts !! j = Some t' → (t <= t')%Q)
       ∧ (∀ j t', (j < i)%nat → ts !! j = Some t' → (t < t')%Q).

(** One [do_bench] call, with [rep=40] and [fast_flush=True], on each of
    the closures at positions [i], [i+1], ... in turn. *)
Definition bench_events (i n : nat) : list event :=
  map (fun j => EvBench j 40 true) (seq i n).

(** The registry of a wrapper that started fresh: every dispatcher name
    is [multi_kernel_] followed by the first name of its tuple, the used
    names are the registered ones, no two tuples share a name, and every
    tuple of two or more names has its opening block in the header. *)
Definition names_derived (w : wrapper_code) : Prop :=
  ∀ key name, registry w !! key = Some name →
    ∃ first, key !! 0%nat = Some first ∧ name = multi_kernel_prefix +:+ first.

Definition names_recorded (w : wrapper_code) : Prop :=
  ∀ name, name ∈ assigned_names w ↔ ∃ key, registry w !! key = Some name.

Definition names_unique (w : wrapper_code) : Prop :=
  ∀ key key' name,
    registry w !! key = Some name → registry w !! key' = Some name → key = key'.

Definition dispatchers_defined (w : wrapper_code) : Prop :=
  ∀ key name, registry w !! key = Some name → (2 ≤ length key)%nat →
    header_open name key ∈ header w.

Definition registry_inv (w : wrapper_code) : Prop :=
  names_derived w ∧ names_recorded w ∧ names_unique w ∧ dispatchers_defined w.

(** [w'] keeps what [w] holds: registrations, used names, and the header
    as a prefix, extended by nothing or by one block of three splices. *)
Definition extends (w w' : wrapper_code) : Prop :=
  (∀ key name, registry w !! key = Some name → registry w' !! key = Some name)
  ∧ (∀ name, name ∈ assigned_names w → name ∈ assigned_names w')
  ∧ ∃ blocks, header w' = header w ++ blocks
              ∧ (blocks = [] ∨ length blocks = 3%nat).

(** The wrapper once [define_kernel] has recorded [name] for the group,
    and once it has spliced the block of the group as well. *)
Definition record_name (name : string) (kernels : list kernel) (w : wrapper_code)
  : wrapper_code :=
  set_state
    {| subkernel_to_kernel_name := <[group_key kernels := name]> (registry w);
       used_names := assigned_names w ∪ {[name]} |} w.

Definition record_dispatcher (name : string) (kernels : list kernel) (g : glue)
    (w : wrapper_code) : wrapper_code :=
  {| header := header w ++ dispatcher_block name kernels g;
     multi_kernel_state := multi_kernel_state (record_name name kernels w) |}.

(** What a call on [kernels] returns when it registers the group: the
    dispatcher named after the first kernel. *)
Definition returns_dispatcher (kernels : list kernel) (r : result string) : Prop :=
  ∃ first, first_name kernels = Some first ∧ r = Ok ("multi_kernel_" +:+ first).

(** * Sample inputs *)

Definition kernel_x_r (inside : bool) : kernel :=
  {| kernel_name := "triton_red_0";
     python_argdefs := (["in_ptr0"; "out_ptr0"], [], []);
     get_call_args := ["buf0"; "buf1"];
     range_trees := [ {| prefix := "x" |}; {| prefix := "r" |} ];
     inside_reduction := inside |}.

(** Three kernels for the same computation. *)
Definition k1 : kernel :=
  {| kernel_name := "k1";
     python_argdefs := (["in_ptr0"; "out_ptr0"], [], []);
     get_call_args := ["buf0"; "buf1"];
     range_trees := [ {| prefix := "x" |}; {| prefix := "r" |} ];
     inside_reduction := true |}.

Definition k2 : kernel :=
  {| kernel_name := "k2";
     python_argdefs := (["in_ptr0"; "out_ptr1"; "out_ptr0"], [], []);
     get_call_args := ["buf0"; "buf2"; "buf1"];
     range_trees := [ {| prefix := "x" |}; {| prefix := "r" |} ];
     inside_reduction := true |}.

Definition k3 : kernel :=
  {| kernel_name := "k3";
     python_argdefs := (["out_ptr0"; "in_ptr1"], [], []);
     get_call_args := ["buf1"; "buf3"];
     range_trees := [ {| prefix := "x" |}; {| prefix := "r" |} ];
     inside_reduction := true |}.

(** The device state is a clock; a closure advances it by its cost, and
    the benchmark reports the time the closure took. *)
Definition sample_call (cost : nat) : @kernel_call nat :=
  fun w => (Ok tt, (w + cost)%nat).

Definition failing_call : @kernel_call nat :=
  fun w => (Raise (RuntimeError "launch failed"), w).

Definition sample_do_bench (fn : @kernel_call nat) (rep : Z) (fast_flush : bool)
    (w : nat) : result Q * nat :=
  match fn w with
  | (Ok _, w') => (Ok (inject_Z (Z.of_nat (w' - w))), w')
  | (Raise e, w') => (Raise e, w')
  end.

Definition sample_runner : MultiKernelCall kernel unit :=
  {| _kernels := [k1; k2]; picked_kernel := None; _run := tt |}.

Definition sample_calls : list (@kernel_call nat) := [sample_call 5; sample_call 1].

Definition sample_rt : rt nat := {| world := 0%nat; trace := [] |}.

Definition sample_decided : MultiKernelCall kernel unit :=
  (run_with_argless_kernels sample_do_bench sample_runner sample_calls sample_rt).1.2.

(** Futures numbered from 0: future 0 fails to compile, future [n+1]
    compiles to the kernel named by [n]. *)
Definition sample_future_result (f : nat) : result string :=
  match f with
  | O => Raise (RuntimeError "compilation failed")
  | S n => Ok ("triton_" +:+ pretty n)
  end.

Definition sample_pending (slots : list (kernel_slot string nat))
  : MultiKernelCall (kernel_slot string nat) unit :=
  {| _kernels := slots; picked_kernel := None; _run := tt |}.

(** The numel names go to the call arguments, one grid entry per name. *)
Definition sample_add_numel (k : kernel) (call_args : list string)
    (grid : list string) : list string * list string :=
  (call_args ++ get_numel_argdefs k, grid ++ get_numel_argdefs k).

(** A kernel called on the buffers named after its parameters. *)
Definition buffer_of (arg : string) : string := "buf_" +:+ arg.

Definition on_buffers (k : kernel) : kernel :=
  {| kernel_name := kernel_name k;
     python_argdefs := python_argdefs k;
     get_call_args := map buffer_of (get_kernel_argdefs k);
     range_trees := range_trees k;
     inside_reduction := inside_reduction k |}.

(** * Properties *)

(** ** Ordered union of names *)

Section Union.
Context {V : Type}.
Implicit Types (d : @PyDict.t V) (l seen : list string).

Lemma keys_setitem k v d :
  PyDict.keys (PyDict.setitem k v d) = add_key (PyDict.keys d) k.
Proof.
  induction d as [|[k' v'] d IH]; simpl.
  - unfold add_key. case_decide as Hin; [|done]. by apply elem_of_nil in Hin.
  - destruct (decide (k = k')) as [->|Hne]; simpl.
    + unfold add_key. rewrite decide_True; [done | by left].
    + rewrite IH. unfold add_key.
      destruct (decide (k ∈ PyDict.keys d)) as [Hin|Hin].
      * rewrite decide_True; [done | by right].
      * rewrite decide_False; [done|].
        intros Hin'. apply elem_of_cons in Hin' as [?|?]; done.
Qed.

Lemma keys_update d other :
  PyDict.keys (PyDict.update d other) = add_keys (PyDict.keys other) (PyDict.keys d).
Proof.
  unfold PyDict.update, add_keys. revert d.
  induction other as [|[k v] other IH]; intros d; simpl; [done|].
  by rewrite IH, keys_setitem.
Qed.

Lemma keys_comprehension l (v : V) :
  PyDict.keys (PyDict.comprehension l v) = add_keys l [].
Proof.
  unfold PyDict.comprehension, add_keys.
  change (@nil string) with (PyDict.keys (@PyDict.empty V)) at 1.
  generalize (@PyDict.empty V).
  induction l as [|k l IH]; intros d; simpl; [done|].
  by rewrite IH, keys_setitem.
Qed.
End Union.

Lemma add_keys_app l1 l2 seen :
  add_keys (l1 ++ l2) seen = add_keys l2 (add_keys l1 seen).
Proof. apply fold_left_app. Qed.

Lemma elem_of_add_key seen k x : x ∈ add_key seen k ↔ x ∈ seen ∨ x = k.
Proof. unfold add_key. case_decide; set_solver. Qed.

Lemma elem_of_add_keys l seen x : x ∈ add_keys l seen ↔ x ∈ seen ∨ x ∈ l.
Proof.
  revert seen. induction l as [|k l IH]; intros seen; simpl.
  - set_solver.
  - unfold add_keys in *. simpl. rewrite IH, elem_of_add_key. set_solver.
Qed.

Lemma add_keys_seen l seen : (∀ x, x ∈ l → x ∈ seen) → add_keys l seen = seen.
Proof.
  revert seen. induction l as [|k l IH]; intros seen Hsub; [done|].
  unfold add_keys in *. simpl. unfold add_key at 2.
  rewrite decide_True by set_solver. apply IH. set_solver.
Qed.

Lemma add_keys_snoc l k seen :
  add_keys (l ++ [k]) seen = add_key (add_keys l seen) k.
Proof. by rewrite add_keys_app. Qed.

Lemma add_keys_idem l seen : add_keys (add_keys l []) seen = add_keys l seen.
Proof.
  induction l as [|k l IH] using rev_ind; [done|].
  rewrite !add_keys_snoc. unfold add_key at 1.
  destruct (decide (k ∈ add_keys l [])) as [Hin|Hin].
  - rewrite IH. unfold add_key. rewrite decide_True; [done|].
    apply elem_of_add_keys. apply elem_of_add_keys in Hin. set_solver.
  - by rewrite add_keys_snoc, IH.
Qed.

Lemma NoDup_add_keys l seen : NoDup seen → NoDup (add_keys l seen).
Proof.
  revert seen. induction l as [|k l IH]; intros seen Hnd; [done|].
  unfold add_keys in *. simpl. apply IH. unfold add_key. case_decide; [done|].
  apply NoDup_app. split_and!; [done | set_solver | apply NoDup_singleton].
Qed.

(** The dictionary loop shared by [get_all_kernel_argdefs] and
    [call_kernel] computes [add_keys] over the concatenated lists. *)
Lemma keys_union_loop (ls : list (list string)) (d : @PyDict.t unit) :
  PyDict.keys
    (fold_left (fun acc l => PyDict.update acc (PyDict.comprehension l tt)) ls d)
  = add_keys (concat ls) (PyDict.keys d).
Proof.
  revert d. induction ls as [|l ls IH]; intros d; simpl; [done|].
  by rewrite IH, keys_update, keys_comprehension, add_keys_idem, add_keys_app.
Qed.

Lemma get_all_kernel_argdefs_add_keys kernels :
  get_all_kernel_argdefs kernels
  = add_keys (concat (map get_kernel_argdefs kernels)) [].
Proof. unfold get_all_kernel_argdefs. by rewrite keys_union_loop. Qed.

Lemma call_kernel_all_call_args_add_keys kernels :
  call_kernel_all_call_args kernels
  = add_keys (concat (map get_call_args kernels)) [].
Proof. unfold call_kernel_all_call_args. by rewrite keys_union_loop. Qed.

Lemma add_keys_by_first_occurrence flat :
  by_first_occurrence flat (add_keys flat []).
Proof.
  induction flat as [|k flat IH] using rev_ind.
  - intros i j a b Hi. unfold add_keys in Hi. simpl in Hi. by rewrite lookup_nil in Hi.
  - rewrite add_keys_snoc. intros i j a b Hi Hj Hlt.
    assert (Hold : ∀ i j a b, add_keys flat [] !! i = Some a →
              add_keys flat [] !! j = Some b → (i < j)%nat →
              first_seen_before (flat ++ [k]) a b).
    { clear i j a b Hi Hj Hlt. intros i j a b Hi Hj Hlt.
      destruct (IH i j a b Hi Hj Hlt) as (p & Hp & Hfirst).
      exists p. split; [by apply lookup_app_l_Some|].
      intros q Hq. apply lookup_app_Some in Hq as [Hq|[Hge _]]; [by apply Hfirst|].
      apply lookup_lt_Some in Hp. lia. }
    unfold add_key in Hi, Hj. case_decide as Hin; [by eapply Hold|].
    assert (Hk : k ∉ flat).
    { intros Hk. apply Hin, elem_of_add_keys. by right. }
    apply lookup_app_Some in Hj as [Hj|[Hge Hj]].
    + apply lookup_lt_Some in Hj as Hjlt.
      rewrite lookup_app_l in Hi by lia. by eapply Hold.
    + apply list_lookup_singleton_Some in Hj as [Hj0 <-].
      rewrite lookup_app_l in Hi by lia.
      assert (Ha : a ∈ flat).
      { apply list_elem_of_lookup_2 in Hi. apply elem_of_add_keys in Hi. set_solver. }
      apply list_elem_of_lookup in Ha as [p Hp]. exists p.
      split; [by apply lookup_app_l_Some|].
      intros q Hq. apply lookup_app_Some in Hq as [Hq|[Hge' _]].
      * apply list_elem_of_lookup_2 in Hq. done.
      * apply lookup_lt_Some in Hp. lia.
Qed.

Lemma elem_of_concat (lists : list (list string)) x :
  x ∈ concat lists ↔ ∃ l, l ∈ lists ∧ x ∈ l.
Proof.
  rewrite list_elem_of_In, in_concat.
  split; intros (l & Hl & Hx); exists l; split;
    first [by apply list_elem_of_In | by apply list_elem_of_In in Hl
          | by apply list_elem_of_In in Hx].
Qed.

Lemma elem_of_map {A B : Type} (f : A → B) (l : list A) x :
  x ∈ l → f x ∈ map f l.
Proof. rewrite !list_elem_of_In. apply in_map. Qed.

Lemma add_keys_ordered_union lists :
  ordered_union_of lists (add_keys (concat lists) []).
Proof.
  split_and!.
  - apply NoDup_add_keys, NoDup_nil_2.
  - intros x. rewrite elem_of_add_keys, elem_of_concat.
    split; [intros [Hnil|?]; [by apply elem_of_nil in Hnil | done] | by right].
  - apply add_keys_by_first_occurrence.
Qed.

Lemma add_keys_again (lists : list (list string)) l :
  l ∈ lists →
  add_keys (concat (lists ++ [l])) [] = add_keys (concat lists) [].
Proof.
  intros Hl. rewrite concat_app, add_keys_app. simpl. rewrite app_nil_r.
  apply add_keys_seen. intros x Hx. apply elem_of_add_keys. right.
  apply elem_of_concat. eauto.
Qed.

(** ** Iteration-size names *)

Lemma numel_included_test k tree :
  negb (String.eqb (prefix tree) "r") || inside_reduction k = true
  ↔ numel_included k tree.
Proof.
  unfold numel_included.
  destruct (String.eqb_spec (prefix tree) "r"), (inside_reduction k);
    simpl; naive_solver.
Qed.

Lemma numel_loop k trees acc :
  fold_left
    (fun numel_argdefs tree =>
       if negb (String.eqb (prefix tree) "r") || inside_reduction k
       then numel_argdefs ++ [numel_name tree]
       else numel_argdefs) trees acc
  = acc ++ map numel_name (filter (numel_included k) trees).
Proof.
  revert acc. induction trees as [|t trees IH]; intros acc; simpl.
  - by rewrite app_nil_r.
  - rewrite IH, filter_cons.
    destruct (negb (String.eqb (prefix t) "r") || inside_reduction k) eqn:Htest.
    + rewrite decide_True by (by apply numel_included_test).
      simpl. by rewrite <- app_assoc.
    + rewrite decide_False; [done|].
      intros Hinc. apply numel_included_test in Hinc. congruence.
Qed.

(** C7. [get_numel_argdefs] lists, in the order of the kernel's range
    trees, the name [prefix ++ "numel"] of every tree whose prefix is not
    ["r"], and of a tree with prefix ["r"] exactly when the kernel is
    inside a reduction. *)
Theorem get_numel_argdefs_rule (k : kernel) :
  get_numel_argdefs k
    = map numel_name (filter (numel_included k) (range_trees k))
  ∧ (∀ tree, numel_included k tree ↔
               (prefix tree = "r" → inside_reduction k = true))
  ∧ (inside_reduction k = true →
       get_numel_argdefs k = map numel_name (range_trees k))
  ∧ (inside_reduction k = false →
       get_numel_argdefs k
         = map numel_name (filter (fun tree => prefix tree ≠ "r") (range_trees k))).
Proof.
  assert (Hmain : get_numel_argdefs k
            = map numel_name (filter (numel_included k) (range_trees k))).
  { unfold get_numel_argdefs. by rewrite numel_loop. }
  split_and!; [done| | |].
  - intros tree. unfold numel_included.
    destruct (decide (prefix tree = "r")); naive_solver.
  - intros Hin. rewrite Hmain. clear Hmain. f_equal.
    induction (range_trees k) as [|t l IH]; [done|].
    rewrite filter_cons, decide_True by (by right). by rewrite IH.
  - intros Hin. rewrite Hmain. clear Hmain. f_equal.
    induction (range_trees k) as [|t l IH]; [done|].
    rewrite !filter_cons, IH.
    destruct (decide (prefix t = "r")) as [Heq|Hne].
    + rewrite decide_False by (intros [?|?]; congruence).
      rewrite decide_False; [done|]. intros Hne. by apply Hne.
    + rewrite decide_True by (by left). by rewrite decide_True.
Qed.

Lemma get_numel_argdefs_rule_witness :
  get_numel_argdefs (kernel_x_r true) = ["xnumel"; "rnumel"]
  ∧ get_numel_argdefs (kernel_x_r false) = ["xnumel"].
Proof.
  split.
  - rewrite (proj1 (proj2 (proj2 (get_numel_argdefs_rule (kernel_x_r true)))));
      reflexivity.
  - rewrite (proj2 (proj2 (proj2 (get_numel_argdefs_rule (kernel_x_r false)))));
      reflexivity.
Defined.

(** C6. The union of argument names computed by [get_all_kernel_argdefs],
    and the union of call arguments computed in [call_kernel], have no
    duplicates, hold exactly the names of the kernels, and order them by
    first occurrence over the kernels taken in order; appending a kernel
    already in the list changes neither, so the union over [A; B; A] is
    the union over [A; B]. *)
Theorem argument_union (kernels : list kernel) :
  ordered_union_of (map get_kernel_argdefs kernels) (get_all_kernel_argdefs kernels)
  ∧ ordered_union_of (map get_call_args kernels) (call_kernel_all_call_args kernels)
  ∧ (∀ k, k ∈ kernels →
       get_all_kernel_argdefs (kernels ++ [k]) = get_all_kernel_argdefs kernels
       ∧ call_kernel_all_call_args (kernels ++ [k]) = call_kernel_all_call_args kernels)
  ∧ (∀ A B,
       get_all_kernel_argdefs [A; B; A] = get_all_kernel_argdefs [A; B]
       ∧ call_kernel_all_call_args [A; B; A] = call_kernel_all_call_args [A; B]).
Proof.
  assert (Hagain : ∀ ks k, k ∈ ks →
            get_all_kernel_argdefs (ks ++ [k]) = get_all_kernel_argdefs ks
            ∧ call_kernel_all_call_args (ks ++ [k]) = call_kernel_all_call_args ks).
  { intros ks k Hk.
    rewrite !get_all_kernel_argdefs_add_keys, !call_kernel_all_call_args_add_keys.
    rewrite !map_app. simpl.
    split; apply add_keys_again; by apply elem_of_map. }
  split_and!.
  - rewrite get_all_kernel_argdefs_add_keys. apply add_keys_ordered_union.
  - rewrite call_kernel_all_call_args_add_keys. apply add_keys_ordered_union.
  - apply Hagain.
  - intros A B. apply (Hagain [A; B] A). by left.
Qed.

Lemma argument_union_witness :
  get_all_kernel_argdefs [kernel_x_r true; kernel_x_r false; kernel_x_r true]
  = get_all_kernel_argdefs [kernel_x_r true; kernel_x_r false].
Proof.
  apply (proj1 (proj2 (proj2 (argument_union [kernel_x_r true; kernel_x_r false])))
           (kernel_x_r true)).
  by left.
Defined.

(** ** The registry *)

Lemma define_kernel_registered w kernels name :
  registry w !! group_key kernels = Some name →
  define_kernel w kernels = (Ok name, w).
Proof.
  unfold registry, group_key, define_kernel. intros Hreg. by rewrite Hreg.
Qed.

Lemma src_code_glue_Ok kernels g :
  src_code_glue kernels = Ok g ↔
  ∃ k0 k1, kernels !! 0%nat = Some k0 ∧ kernels !! 1%nat = Some k1 ∧
    g = {| run_args := get_all_kernel_argdefs kernels;
           run_numels := get_numel_argdefs k0;
           closures :=
             [ {| closure_name := "call0"; closure_kernel := 0;
                  closure_args := get_kernel_argdefs k0;
                  closure_numels := get_numel_argdefs k0 |};
               {| closure_name := "call1"; closure_kernel := 1;
                  closure_args := get_kernel_argdefs k1;
                  closure_numels := get_numel_argdefs k1 |} ];
           dispatched := ["call0"; "call1"] |}.
Proof.
  unfold src_code_glue, py_getitem.
  destruct (kernels !! 0%nat) as [k0|] eqn:H0; simpl;
    [destruct (kernels !! 1%nat) as [k1|] eqn:H1; simpl|].
  - split.
    + intros [= <-]. by exists k0, k1.
    + intros (k0' & k1' & [= <-] & [= <-] & ->). done.
  - split; [done|]. intros (? & ? & _ & ? & _). done.
  - split; [done|]. intros (? & ? & ? & _). done.
Qed.

Lemma src_code_glue_two kernels :
  (2 ≤ length kernels)%nat → ∃ g, src_code_glue kernels = Ok g.
Proof.
  intros Hlen. destruct kernels as [|k0 [|k1 rest]]; simpl in Hlen; try lia.
  eexists. apply src_code_glue_Ok. by exists k0, k1.
Qed.

Lemma src_code_glue_short kernels :
  (length kernels < 2)%nat → src_code_glue kernels = Raise IndexError.
Proof.
  intros Hlen. destruct kernels as [|k0 [|k1 rest]]; simpl in Hlen; try lia; done.
Qed.

(** What a call does when the group is not registered yet and can be. *)
Lemma define_kernel_fresh w kernels first :
  registry w !! group_key kernels = None →
  group_key kernels !! 0%nat = Some first →
  multi_kernel_prefix +:+ first ∉ assigned_names w →
  let name := multi_kernel_prefix +:+ first in
  let w1 :=
    set_state
      {| subkernel_to_kernel_name := <[group_key kernels := name]> (registry w);
         used_names := assigned_names w ∪ {[name]} |} w in
  define_kernel w kernels =
    match src_code_glue kernels with
    | Ok g =>
        (Ok name,
         {| header := header w ++ dispatcher_block name kernels g;
            multi_kernel_state := multi_kernel_state w1 |})
    | Raise e => (Raise e, w1)
    end.
Proof.
  unfold registry, assigned_names, group_key. intros Hreg Hfirst Hfree. simpl.
  unfold define_kernel, py_getitem. rewrite Hreg, Hfirst.
  rewrite decide_False by done. unfold src_code.
  destruct (src_code_glue kernels) as [g|e]; simpl; [|done].
  unfold splice, set_state, dispatcher_block, group_key. simpl.
  by rewrite <- !app_assoc.
Qed.

Lemma define_kernel_collision w kernels first :
  registry w !! group_key kernels = None →
  group_key kernels !! 0%nat = Some first →
  multi_kernel_prefix +:+ first ∈ assigned_names w →
  define_kernel w kernels = (Raise AssertionError, w).
Proof.
  unfold registry, assigned_names, group_key. intros Hreg Hfirst Hused.
  unfold define_kernel, py_getitem. rewrite Hreg, Hfirst.
  by rewrite decide_True.
Qed.

Lemma define_kernel_empty w :
  registry w !! group_key [] = None →
  define_kernel w [] = (Raise IndexError, w).
Proof.
  unfold registry, group_key, define_kernel. simpl. by intros ->.
Qed.

(** After a call, the group is registered unless the call raised before
    touching the registry, and then nothing changed. *)
Lemma define_kernel_outcome w kernels :
  (∃ name, registry (define_kernel w kernels).2 !! group_key kernels = Some name
           ∧ ∀ name', (define_kernel w kernels).1 = Ok name' → name' = name)
  ∨ ((define_kernel w kernels).2 = w
     ∧ registry w !! group_key kernels = None
     ∧ ∃ e, (define_kernel w kernels).1 = Raise e).
Proof.
  destruct (registry w !! group_key kernels) as [name|] eqn:Hreg.
  { left. exists name. rewrite (define_kernel_registered _ _ _ Hreg). simpl.
    split; [done | by intros ? [= <-]]. }
  destruct (group_key kernels !! 0%nat) as [first|] eqn:Hfirst.
  - destruct (decide (multi_kernel_prefix +:+ first ∈ assigned_names w)) as [Hused|Hfree].
    + right. rewrite (define_kernel_collision _ _ _ Hreg Hfirst Hused). eauto.
    + left. exists (multi_kernel_prefix +:+ first).
      rewrite (define_kernel_fresh _ _ _ Hreg Hfirst Hfree).
      destruct (src_code_glue kernels) as [g|e]; simpl;
        unfold registry; simpl; rewrite lookup_insert_eq;
        (split; [done|]); [by intros ? [= <-] | done].
  - right. destruct kernels as [|k kernels]; [|done].
    rewrite (define_kernel_empty _ Hreg). eauto.
Qed.

(** C2. Two calls of [define_kernel] with lists that carry the same
    ordered tuple of kernel names: the second call leaves the wrapper as
    the first left it, header and registry alike, and returns the
    dispatcher name the first one returned. *)
Theorem define_kernel_dedup (w : wrapper_code) (kernels kernels' : list kernel) :
  group_key kernels = group_key kernels' →
  let w1 := (define_kernel w kernels).2 in
  (define_kernel w1 kernels').2 = w1
  ∧ ∀ name, (define_kernel w kernels).1 = Ok name →
            (define_kernel w1 kernels').1 = Ok name.
Proof.
  intros Hkey w1. subst w1.
  destruct (define_kernel_outcome w kernels)
    as [(name & Hreg & Hname)|(Hsame & Hreg & e & He)].
  - rewrite Hkey in Hreg.
    rewrite (define_kernel_registered _ _ _ Hreg). simpl.
    split; [done|]. intros name' Hret. by rewrite (Hname _ Hret).
  - rewrite Hsame. split; [|intros name Hret; congruence].
    rewrite Hkey in Hreg.
    destruct (group_key kernels' !! 0%nat) as [first|] eqn:Hfirst.
    + destruct (decide (multi_kernel_prefix +:+ first ∈ assigned_names w))
        as [Hused|Hfree].
      * by rewrite (define_kernel_collision _ _ _ Hreg Hfirst Hused).
      * exfalso. rewrite <- Hkey in Hreg, Hfirst.
        rewrite (define_kernel_fresh _ _ _ Hreg Hfirst Hfree) in He.
        rewrite (define_kernel_fresh _ _ _ Hreg Hfirst Hfree) in Hsame.
        destruct (src_code_glue kernels); simpl in *; [done|].
        apply (f_equal registry) in Hsame. unfold registry in Hsame at 1.
        simpl in Hsame. apply (f_equal (lookup (group_key kernels))) in Hsame.
        rewrite lookup_insert_eq in Hsame. congruence.
    + destruct kernels' as [|k ks]; [|done].
      by rewrite (define_kernel_empty _ Hreg).
Qed.

Example define_kernel_k1_k2_header :
  header (define_kernel wrapper_init [k1; k2]).2 =
  [ "
        multi_kernel_k1 = MultiKernelCall([
            k1, k2,
        ],
            '''
        ";
    "
def run(multi_kernel_call, in_ptr0, out_ptr0, out_ptr1, xnumel, rnumel, grid, stream):
    def call0():
        multi_kernel_call.kernels[0].run(in_ptr0, out_ptr0, xnumel, rnumel, grid=grid, stream=stream)
    def call1():
        multi_kernel_call.kernels[1].run(in_ptr0, out_ptr1, out_ptr0, xnumel, rnumel, grid=grid, stream=stream)
    multi_kernel_call.run_with_argless_kernels([call0, call1])
        ";
    "
            '''
        )
        " ].
Proof. vm_compute. reflexivity. Qed.

Lemma define_kernel_dedup_witness :
  let w1 := (define_kernel wrapper_init [k1; k2]).2 in
  define_kernel w1 [k1; k2] = (Ok "multi_kernel_k1", w1).
Proof.
  intros w1.
  destruct (define_kernel_dedup wrapper_init [k1; k2] [k1; k2] eq_refl) as [Hw Hname].
  fold w1 in Hw, Hname.
  rewrite (surjective_pairing (define_kernel w1 [k1; k2])).
  rewrite Hw, (Hname "multi_kernel_k1"); [reflexivity | vm_compute; reflexivity].
Defined.

(** ** Glue closures *)

(** C4, as the code has it. When [define_kernel] registers a new group
    and returns, the block it appends to the header holds the glue of the
    group, and that glue defines exactly two closures, [call0] and
    [call1], for the first two kernels of the group, each on its own
    kernel's arguments and iteration-size names inside a template that
    passes [grid] and [stream]; the list handed to
    [run_with_argless_kernels] is these two closures in order.  There is
    one closure per kernel exactly when the group has two kernels. *)
Theorem define_kernel_glue (w w' : wrapper_code) (kernels : list kernel)
    (name : string) :
  registry w !! group_key kernels = None →
  define_kernel w kernels = (Ok name, w') →
  ∃ g, src_code_glue kernels = Ok g
    ∧ header w' = header w ++ dispatcher_block name kernels g
    ∧ length (closures g) = 2%nat
    ∧ (∀ i c, closures g !! i = Some c → closure_for kernels i c)
    ∧ dispatched g = map closure_name (closures g)
    ∧ run_args g = get_all_kernel_argdefs kernels
    ∧ (∃ k0, kernels !! 0%nat = Some k0 ∧ run_numels g = get_numel_argdefs k0)
    ∧ (length (closures g) = length kernels ↔ length kernels = 2%nat).
Proof.
  intros Hreg Hdef.
  destruct (group_key kernels !! 0%nat) as [first|] eqn:Hfirst; cycle 1.
  { destruct kernels; [|done]. by rewrite (define_kernel_empty _ Hreg) in Hdef. }
  destruct (decide (multi_kernel_prefix +:+ first ∈ assigned_names w)) as [Hused|Hfree].
  { by rewrite (define_kernel_collision _ _ _ Hreg Hfirst Hused) in Hdef. }
  rewrite (define_kernel_fresh _ _ _ Hreg Hfirst Hfree) in Hdef.
  destruct (src_code_glue kernels) as [g|e] eqn:Hglue; [|done].
  injection Hdef as <- <-. exists g. split; [done|]. simpl.
  apply src_code_glue_Ok in Hglue as (k0 & k1 & H0 & H1 & ->). simpl.
  split_and!; try done.
  - intros [|[|i]] c Hc; simpl in Hc; [| |by rewrite lookup_nil in Hc];
      injection Hc as <-; (split_and!; [done | done |]); eauto.
  - eauto.
Qed.

Lemma define_kernel_glue_witness :
  ∃ g, src_code_glue [k1; k2] = Ok g ∧ length (closures g) = length [k1; k2].
Proof.
  destruct (define_kernel_glue wrapper_init (define_kernel wrapper_init [k1; k2]).2
              [k1; k2] "multi_kernel_k1")
    as (g & Hg & _ & _ & _ & _ & _ & _ & Hlen).
  - reflexivity.
  - vm_compute. reflexivity.
  - exists g. split; [exact Hg | apply Hlen; reflexivity].
Defined.

(** C4 fails as stated: a group of three kernels is accepted, and its
    glue still defines and dispatches two closures only. *)
Lemma define_kernel_glue_counterexample :
  ∃ w' g,
    define_kernel wrapper_init [k1; k2; k3] = (Ok "multi_kernel_k1", w')
    ∧ src_code_glue [k1; k2; k3] = Ok g
    ∧ header w' = dispatcher_block "multi_kernel_k1" [k1; k2; k3] g
    ∧ length (closures g) = 2%nat
    ∧ dispatched g = ["call0"; "call1"]
    ∧ length (closures g) ≠ length [k1; k2; k3].
Proof.
  eexists _, _. split_and!; [vm_compute; reflexivity | reflexivity | ..];
    vm_compute; (reflexivity || discriminate).
Qed.

(** ** Dispatcher names *)

Lemma define_kernel_assigned w kernels n :
  n ∈ assigned_names (define_kernel w kernels).2 →
  n ∈ assigned_names w
  ∨ ∃ first, first_name kernels = Some first ∧ n = multi_kernel_prefix +:+ first.
Proof.
  unfold first_name.
  destruct (registry w !! group_key kernels) as [name|] eqn:Hreg.
  { rewrite (define_kernel_registered _ _ _ Hreg). by left. }
  destruct (group_key kernels !! 0%nat) as [first|] eqn:Hfirst.
  - destruct (decide (multi_kernel_prefix +:+ first ∈ assigned_names w)) as [Hused|Hfree].
    + rewrite (define_kernel_collision _ _ _ Hreg Hfirst Hused). by left.
    + rewrite (define_kernel_fresh _ _ _ Hreg Hfirst Hfree).
      destruct (src_code_glue kernels); unfold assigned_names; simpl;
        rewrite elem_of_union, elem_of_singleton; intros [? | ->]; eauto.
  - destruct kernels; [|done]. rewrite (define_kernel_empty _ Hreg). by left.
Qed.

Lemma define_kernel_names_from seen w kernels :
  names_from seen w →
  names_from (first_name kernels :: seen) (define_kernel w kernels).2.
Proof.
  intros Hinv n Hn. apply define_kernel_assigned in Hn as [Hn|(first & Hf & ->)].
  - destruct (Hinv n Hn) as (first & -> & Hseen). exists first. split; [done|].
    by right.
  - exists first. split; [done|]. rewrite Hf. by left.
Qed.

Lemma define_kernel_no_collision seen w kernels :
  names_from seen w → first_name kernels ∉ seen →
  (define_kernel w kernels).1 ≠ Raise AssertionError.
Proof.
  unfold first_name. intros Hinv Hnew.
  destruct (registry w !! group_key kernels) as [name|] eqn:Hreg.
  { by rewrite (define_kernel_registered _ _ _ Hreg). }
  destruct (group_key kernels !! 0%nat) as [first|] eqn:Hfirst.
  - destruct (decide (multi_kernel_prefix +:+ first ∈ assigned_names w)) as [Hused|Hfree].
    + destruct (Hinv _ Hused) as (first' & Heq & Hseen).
      apply (inj (String.app multi_kernel_prefix)) in Heq as <-. done.
    + rewrite (define_kernel_fresh _ _ _ Hreg Hfirst Hfree).
      destruct (src_code_glue kernels) as [g|e] eqn:Hglue; simpl; [done|].
      destruct kernels as [|? [|? ?]]; [done| |].
      * rewrite src_code_glue_short in Hglue by (simpl; lia). congruence.
      * destruct (src_code_glue_two (k :: k0 :: l)) as [g Hg]; [simpl; lia|].
        congruence.
  - destruct kernels; [|done]. by rewrite (define_kernel_empty _ Hreg).
Qed.

Lemma define_kernels_no_collision groups seen w :
  names_from seen w →
  NoDup (map first_name groups) →
  (∀ kernels, kernels ∈ groups → first_name kernels ∉ seen) →
  Raise AssertionError ∉ (define_kernels w groups).1.
Proof.
  revert seen w. induction groups as [|kernels rest IH]; intros seen w Hinv Hnd Hnew.
  - simpl. apply not_elem_of_nil.
  - simpl in *. apply NoDup_cons in Hnd as [Hhd Hnd].
    pose proof (define_kernel_no_collision seen w kernels Hinv) as Hok.
    pose proof (define_kernel_names_from seen w kernels Hinv) as Hinv'.
    destruct (define_kernel w kernels) as [r w1]. simpl in *.
    specialize (IH (first_name kernels :: seen) w1 Hinv' Hnd).
    destruct (define_kernels w1 rest) as [rs w2]. simpl in *.
    apply not_elem_of_cons. split.
    + intros Heq. apply Hok; [|done]. apply Hnew. by left.
    + apply IH. intros ks Hks. apply not_elem_of_cons. split.
      * intros Heq. apply Hhd. rewrite <- Heq. by apply elem_of_map.
      * apply Hnew. by right.
Qed.

(** C5, as the code has it. Starting from a fresh registry, in every run
    of [define_kernel] calls on groups whose first kernel names are
    pairwise distinct, the name synthesized for a group is never in the
    used-names set already: no call raises the collision assertion. *)
Theorem dispatcher_names_collision_free (groups : list (list kernel)) :
  NoDup (map first_name groups) →
  Raise AssertionError ∉ (define_kernels wrapper_init groups).1.
Proof.
  intros Hnd. apply (define_kernels_no_collision groups []); [|done|].
  - intros n Hn. by apply not_elem_of_empty in Hn.
  - intros ks _. apply not_elem_of_nil.
Qed.

Lemma dispatcher_names_collision_free_witness :
  Raise AssertionError ∉ (define_kernels wrapper_init [[k1; k2]; [k2; k1]]).1.
Proof.
  apply (dispatcher_names_collision_free [[k1; k2]; [k2; k1]]).
  vm_compute. apply NoDup_cons. split.
  - intros Hin. apply list_elem_of_singleton in Hin. discriminate.
  - apply NoDup_singleton.
Defined.

(** C5 fails as stated: two groups with distinct name tuples and the same
    first kernel are given the same dispatcher name, and the second call
    stops at the assertion. *)
Lemma dispatcher_names_counterexample :
  NoDup (map group_key [[k1; k2]; [k1; k3]])
  ∧ (define_kernels wrapper_init [[k1; k2]; [k1; k3]]).1
    = [Ok "multi_kernel_k1"; Raise AssertionError].
Proof.
  split; [|vm_compute; reflexivity].
  vm_compute. apply NoDup_cons. split.
  - intros Hin. apply list_elem_of_singleton in Hin. discriminate.
  - apply NoDup_singleton.
Qed.

(** ** Group size *)

Lemma MultiKernel_init_registrable w kernels :
  (2 ≤ length kernels)%nat → registrable w kernels →
  ∃ name w',
    MultiKernel.init w kernels
      = (Ok {| MultiKernel.kernels := kernels; MultiKernel.kernel_name := name |}, w')
    ∧ registry w' !! group_key kernels = Some name.
Proof.
  intros Hlen Hok. unfold MultiKernel.init. rewrite decide_True by done.
  destruct (registry w !! group_key kernels) as [name|] eqn:Hreg.
  { rewrite (define_kernel_registered _ _ _ Hreg). eauto. }
  destruct Hok as [[? Hsome]|(first & Hfirst & Hfree)]; [congruence|].
  rewrite (define_kernel_fresh _ _ _ Hreg Hfirst Hfree).
  destruct (src_code_glue_two kernels Hlen) as [g ->].
  eexists _, _. split; [done|]. unfold registry. simpl. apply lookup_insert_eq.
Qed.

Section GroupSize.
Context {Kernel RunEntry : Type}.
Variable PyCodeCache_load_run : string → result RunEntry.

(** C8, as the code has it. A [MultiKernel] or a [MultiKernelCall]
    built from fewer than two kernels fails on its assertion, before
    anything else happens. With two or more the size check passes: the
    [MultiKernel] constructor goes on to [define_kernel] and the
    [MultiKernelCall] constructor to loading the glue. The
    [MultiKernel] constructor stores the dispatcher name of the group
    for every list of at least two kernels that is registered already
    or whose synthesized name is unused. *)
Theorem group_size_precondition (w : wrapper_code) (kernels : list kernel)
    (runtime_kernels : list Kernel) (src_code : string) :
  ((length kernels < 2)%nat →
     MultiKernel.init w kernels = (Raise AssertionError, w))
  ∧ ((length runtime_kernels < 2)%nat →
       MultiKernelCall_init PyCodeCache_load_run runtime_kernels src_code
         = Raise AssertionError)
  ∧ ((2 ≤ length kernels)%nat →
       MultiKernel.init w kernels
         = (match (define_kernel w kernels).1 with
            | Ok name =>
                Ok {| MultiKernel.kernels := kernels;
                      MultiKernel.kernel_name := name |}
            | Raise e => Raise e
            end, (define_kernel w kernels).2)
       ∧ (registrable w kernels →
            ∃ name w',
              MultiKernel.init w kernels
                = (Ok {| MultiKernel.kernels := kernels;
                         MultiKernel.kernel_name := name |}, w')
              ∧ registry w' !! group_key kernels = Some name))
  ∧ ((2 ≤ length runtime_kernels)%nat →
       MultiKernelCall_init PyCodeCache_load_run runtime_kernels src_code
         = match PyCodeCache_load_run src_code with
           | Ok run =>
               Ok {| _kernels := runtime_kernels; picked_kernel := None;
                     _run := run |}
           | Raise e => Raise e
           end).
Proof.
  split_and!.
  - intros Hlen. unfold MultiKernel.init. rewrite decide_False by lia. done.
  - intros Hlen. unfold MultiKernelCall_init. rewrite decide_False by lia. done.
  - intros Hlen. split; [|by apply MultiKernel_init_registrable].
    unfold MultiKernel.init. rewrite decide_True by done.
    by destruct (define_kernel w kernels) as [[name|e] w'].
  - intros Hlen. unfold MultiKernelCall_init. rewrite decide_True by done.
    by destruct (PyCodeCache_load_run src_code).
Qed.
End GroupSize.

Lemma group_size_precondition_witness :
  MultiKernel.init wrapper_init [k1] = (Raise AssertionError, wrapper_init)
  ∧ ∃ w', MultiKernel.init wrapper_init [k1; k2]
          = (Ok {| MultiKernel.kernels := [k1; k2];
                   MultiKernel.kernel_name := "multi_kernel_k1" |}, w').
Proof.
  destruct (group_size_precondition (fun _ => Ok tt) wrapper_init [k1] [k1] "")
    as (Hshort & _).
  destruct (group_size_precondition (fun _ => Ok tt) wrapper_init [k1; k2] [k1; k2] "")
    as (_ & _ & Hlong & _).
  split.
  - apply Hshort. simpl. lia.
  - destruct Hlong as [Heq _]; [simpl; lia|].
    eexists. rewrite Heq. vm_compute. reflexivity.
Defined.

(** C8 fails as stated: a list of two kernels whose first kernel already
    names another dispatcher passes the size check, and the constructor
    still stores no name. *)
Lemma group_size_counterexample :
  let w1 := (define_kernel wrapper_init [k1; k2]).2 in
  (2 ≤ length [k1; k3])%nat
  ∧ MultiKernel.init w1 [k1; k3] = (Raise AssertionError, w1).
Proof. split; [simpl; lia | vm_compute; reflexivity]. Qed.

(** ** Minimum and index *)

Lemma Qltb_lt x y : Qltb x y = true ↔ (x < y)%Q.
Proof. unfold Qltb, Qlt. apply Z.ltb_lt. Qed.

Lemma Qltb_ge x y : Qltb x y = false ↔ (y <= x)%Q.
Proof. unfold Qltb, Qle. rewrite Z.ltb_ge. done. Qed.

Lemma min_loop l x :
  let m := fold_left (fun m y => if Qltb y m then y else m) l x in
  m ∈ x :: l ∧ (m <= x)%Q ∧ ∀ t, t ∈ l → (m <= t)%Q.
Proof.
  revert x. induction l as [|y l IH]; intros x; simpl.
  - split_and!; [by left | apply Qle_refl | intros t Ht; by apply elem_of_nil in Ht].
  - destruct (Qltb y x) eqn:Hlt.
    + destruct (IH y) as (Hin & Hle & Hall). apply Qltb_lt in Hlt.
      split_and!.
      * by right.
      * eapply Qle_trans; [exact Hle | by apply Qlt_le_weak].
      * intros t Ht. apply elem_of_cons in Ht as [->|Ht]; [done | by apply Hall].
    + destruct (IH x) as (Hin & Hle & Hall). apply Qltb_ge in Hlt.
      split_and!.
      * apply elem_of_cons in Hin as [->|Hin]; [by left | by right; right].
      * done.
      * intros t Ht. apply elem_of_cons in Ht as [->|Ht]; [|by apply Hall].
        by eapply Qle_trans.
Qed.

Lemma py_min_Ok ts m :
  py_min ts = Ok m → m ∈ ts ∧ ∀ t, t ∈ ts → (m <= t)%Q.
Proof.
  destruct ts as [|x l]; [done|]. simpl. intros [= <-].
  destruct (min_loop l x) as (Hin & Hle & Hall).
  split; [done|]. intros t Ht. apply elem_of_cons in Ht as [->|Ht]; [done | by apply Hall].
Qed.

Lemma py_min_nonempty ts : ts ≠ [] → ∃ m, py_min ts = Ok m.
Proof. destruct ts; [done|]. simpl. eauto. Qed.

Lemma py_index_Ok ts v i :
  py_index ts v = Ok i →
  ∃ t, ts !! i = Some t ∧ (t == v)%Q
       ∧ ∀ j t', (j < i)%nat → ts !! j = Some t' → ¬ (t' == v)%Q.
Proof.
  revert i. induction ts as [|x ts IH]; intros i; simpl; [done|].
  destruct (Qeq_bool x v) eqn:Heq.
  - intros [= <-]. exists x. split_and!; [done | by apply Qeq_bool_iff | lia].
  - destruct (py_index ts v) as [i'|e]; simpl; [|done]. intros [= <-].
    destruct (IH i' eq_refl) as (t & Ht & Htv & Hfirst).
    exists t. split_and!; [done | done |].
    intros [|j] t' Hj Hlook; simpl in Hlook.
    + injection Hlook as <-. intros Hxv. apply Qeq_bool_iff in Hxv. congruence.
    + apply (Hfirst j); [lia | done].
Qed.

Lemma py_index_elem ts v : v ∈ ts → ∃ i, py_index ts v = Ok i.
Proof.
  induction ts as [|x ts IH]; intros Hin; [by apply elem_of_nil in Hin|].
  simpl. destruct (Qeq_bool x v) eqn:Heq; [eauto|].
  apply elem_of_cons in Hin as [->|Hin].
  - rewrite (proj2 (Qeq_bool_iff x x)) in Heq by apply Qeq_refl. done.
  - destruct (IH Hin) as [i ->]. simpl. eauto.
Qed.

Lemma index_min_argmin ts :
  ts ≠ [] →
  ∃ m i, py_min ts = Ok m ∧ py_index ts m = Ok i ∧ stable_argmin ts i.
Proof.
  intros Hne. destruct (py_min_nonempty ts Hne) as [m Hm].
  destruct (py_min_Ok _ _ Hm) as [Hin Hle].
  destruct (py_index_elem _ _ Hin) as [i Hi].
  exists m, i. split_and!; [done | done |].
  destruct (py_index_Ok _ _ _ Hi) as (t & Ht & Htm & Hfirst).
  exists t. split_and!; [done | |].
  - intros j t' Hj. rewrite Htm. apply Hle. by eapply list_elem_of_lookup_2.
  - intros j t' Hlt Hj. rewrite Htm.
    assert (Hcases : (m <= t')%Q) by (apply Hle; by eapply list_elem_of_lookup_2).
    apply Qle_lteq in Hcases as [Hlt'|Heq]; [done|].
    exfalso. apply (Hfirst j t' Hlt Hj). by symmetry.
Qed.

Lemma stable_argmin_lt ts i : stable_argmin ts i → (i < length ts)%nat.
Proof. intros (t & Ht & _). by eapply lookup_lt_Some. Qed.

Lemma stable_argmin_equal ts i :
  stable_argmin ts i →
  (∀ t t', t ∈ ts → t' ∈ ts → (t == t')%Q) → i = 0%nat.
Proof.
  intros (t & Ht & _ & Hfirst) Hall. destruct i as [|i]; [done|].
  destruct ts as [|t0 ts]; [done|].
  assert (Hlt : (t < t0)%Q) by (apply (Hfirst 0%nat); [lia | done]).
  assert (Heq : (t == t0)%Q).
  { apply Hall; [by eapply list_elem_of_lookup_2 | by left]. }
  rewrite Heq in Hlt. by apply Qlt_irrefl in Hlt.
Qed.

(** ** The run-time dispatcher *)

Section Dispatch.
Context {World Kernel RunEntry : Type}.
Variable do_bench : @kernel_call World → Z → bool → World → result Q * World.

Implicit Types (self : MultiKernelCall Kernel RunEntry) (s : rt World).
Implicit Types (calls : list (@kernel_call World)) (ts : list Q).
Implicit Types (c : @kernel_call World).

Abbreviation run := (run_with_argless_kernels do_bench).

Lemma benchmarked_length calls w ts w' :
  benchmarked do_bench calls w ts w' → length ts = length calls.
Proof.
  revert w ts. induction calls as [|c calls IH]; intros w [|t ts]; simpl; try done.
  intros (w1 & _ & Hrest). f_equal. by eapply IH.
Qed.

Lemma timings_from_Ok calls i s ts w' :
  benchmarked do_bench calls (world s) ts w' →
  timings_from do_bench i calls s
    = (Ok ts, {| world := w'; trace := trace s ++ bench_events i (length calls) |}).
Proof.
  revert i s ts. induction calls as [|c calls IH]; intros i [w tr] [|t ts]; simpl;
    try done.
  - intros ->. unfold mret, M_ret, bench_events. simpl. by rewrite app_nil_r.
  - intros (w1 & Hbench & Hrest).
    unfold mbind, M_bind, bench at 1. simpl. rewrite Hbench.
    rewrite (IH (S i) {| world := w1; trace := tr ++ [EvBench i 40 true] |} ts)
      by done.
    unfold mret, M_ret, bench_events. simpl. by rewrite <- app_assoc.
Qed.

Lemma timings_from_Raise pre c post i s ts w1 e w2 :
  benchmarked do_bench pre (world s) ts w1 →
  do_bench c 40 true w1 = (Raise e, w2) →
  timings_from do_bench i (pre ++ c :: post) s
    = (Raise e,
       {| world := w2; trace := trace s ++ bench_events i (S (length pre)) |}).
Proof.
  revert i s ts. induction pre as [|c0 pre IH]; intros i [w tr] [|t ts]; simpl;
    try done.
  - intros -> Hbench. unfold mbind, M_bind, bench at 1. simpl. by rewrite Hbench.
  - intros (w' & Hbench0 & Hrest) Hbench.
    unfold mbind, M_bind, bench at 1. simpl. rewrite Hbench0.
    rewrite (IH (S i) {| world := w'; trace := tr ++ [EvBench i 40 true] |} ts)
      by done.
    unfold bench_events. simpl. by rewrite <- app_assoc.
Qed.

Lemma timings_from_inv calls i s ts s1 :
  timings_from do_bench i calls s = (Ok ts, s1) →
  benchmarked do_bench calls (world s) ts (world s1)
  ∧ trace s1 = trace s ++ bench_events i (length calls).
Proof.
  revert i s ts. induction calls as [|c calls IH]; intros i [w tr] ts; simpl.
  - unfold mret, M_ret. intros [= <- <-]. simpl. by rewrite app_nil_r.
  - unfold mbind, M_bind, bench at 1. simpl.
    destruct (do_bench c 40 true w) as [[t|e] w1] eqn:Hbench; [|done].
    destruct (timings_from do_bench (S i) calls _) as [[ts'|e] s2] eqn:Hrest;
      [|done].
    unfold mret, M_ret. intros [= <- <-].
    apply IH in Hrest as [Hb Htr]. simpl in *. split; [eauto|].
    rewrite Htr. unfold bench_events. simpl. by rewrite <- app_assoc.
Qed.

Lemma call_picked_Some i calls c s :
  calls !! i = Some c →
  call_picked i calls s
    = ((c (world s)).1,
       {| world := (c (world s)).2; trace := trace s ++ [EvCall i] |}).
Proof.
  intros Hc. unfold call_picked, mbind, M_bind, lift, py_getitem, invoke.
  rewrite Hc. by destruct (c (world s)).
Qed.

Lemma call_picked_None i calls s :
  calls !! i = None → call_picked i calls s = (Raise IndexError, s).
Proof.
  intros Hc. unfold call_picked, mbind, M_bind, lift, py_getitem. by rewrite Hc.
Qed.

(** Once decided, an invocation is [kernel_calls[i]()] and nothing else. *)
Lemma run_decided self i calls s :
  picked_kernel self = Some i →
  run self calls s
    = ((call_picked i calls s).1, self, (call_picked i calls s).2).
Proof.
  intros Hp. unfold run_with_argless_kernels. rewrite Hp.
  by destruct (call_picked i calls s).
Qed.

Lemma run_undecided self calls s ts w1 :
  picked_kernel self = None →
  calls ≠ [] →
  benchmarked do_bench calls (world s) ts w1 →
  ∃ i c, stable_argmin ts i ∧ calls !! i = Some c
    ∧ run self calls s
      = ((c w1).1, set_picked_kernel i self,
         {| world := (c w1).2;
            trace := trace s ++ bench_events 0 (length calls) ++ [EvCall i] |}).
Proof.
  intros Hp Hne Hb.
  pose proof (benchmarked_length _ _ _ _ Hb) as Hlen.
  assert (Hts : ts ≠ []) by (destruct ts, calls; done).
  destruct (index_min_argmin ts Hts) as (m & i & Hm & Hi & Harg).
  pose proof (stable_argmin_lt _ _ Harg) as Hlt.
  destruct (lookup_lt_is_Some_2 calls i) as [c Hc]; [lia|].
  exists i, c. split_and!; [done | done |].
  unfold run_with_argless_kernels. rewrite Hp.
  unfold mbind, M_bind, lift. rewrite (timings_from_Ok _ _ _ _ _ Hb), Hm, Hi.
  rewrite (call_picked_Some _ _ _ _ Hc). simpl. by rewrite <- app_assoc.
Qed.

Lemma run_undecided_inv self calls s i :
  picked_kernel self = None →
  picked_kernel (run self calls s).1.2 = Some i →
  ∃ ts w1, benchmarked do_bench calls (world s) ts w1 ∧ calls ≠ [].
Proof.
  intros Hp. unfold run_with_argless_kernels. rewrite Hp.
  unfold mbind, M_bind, lift.
  destruct (timings_from do_bench 0 calls s) as [[ts|e] s1] eqn:Hts; simpl;
    [|congruence].
  apply timings_from_inv in Hts as [Hb _].
  destruct (py_min ts) as [m|e] eqn:Hm; [|simpl; congruence].
  intros _. exists ts, (world s1). split; [done|].
  intros ->. by destruct ts.
Qed.
End Dispatch.

Lemma filter_is_bench_calls n i : filter is_bench (replicate n (EvCall i)) = [].
Proof.
  induction n as [|n IH]; [done|]. simpl.
  rewrite filter_cons_False by (intros []). exact IH.
Qed.

Section Selection.
Context {World Kernel RunEntry : Type}.
Variable do_bench : @kernel_call World → Z → bool → World → result Q * World.

Implicit Types (self : MultiKernelCall Kernel RunEntry) (s : rt World).
Implicit Types (calls : list (@kernel_call World)) (ts : list Q).
Implicit Types (c : @kernel_call World).
Implicit Types (invocations : list ((World → World) * list (@kernel_call World))).

Abbreviation run := (run_with_argless_kernels do_bench).

Lemma run_many_decided self i invocations s :
  picked_kernel self = Some i →
  picked_kernel (run_many do_bench self invocations s).1 = Some i
  ∧ trace (run_many do_bench self invocations s).2
    = trace s ++ replicate (length (reaching i invocations)) (EvCall i).
Proof.
  intros Hp. revert s.
  induction invocations as [|[between calls] rest IH]; intros s; simpl.
  - by rewrite app_nil_r.
  - rewrite (run_decided do_bench self i calls _ Hp). unfold reaching.
    rewrite filter_cons. simpl.
    destruct (calls !! i) as [c|] eqn:Hc.
    + rewrite (call_picked_Some _ _ _ _ Hc). simpl.
      rewrite decide_True by (by eapply lookup_lt_Some).
      destruct (IH {| world := (c (between (world s))).2;
                      trace := trace s ++ [EvCall i] |}) as [IHp IHt].
      split; [done|]. rewrite IHt. simpl. by rewrite <- app_assoc.
    + rewrite (call_picked_None _ _ _ Hc). simpl.
      rewrite decide_False by (apply lookup_ge_None in Hc; lia).
      apply (IH {| world := between (world s); trace := trace s |}).
Qed.


(** C3. On an invocation that finds [picked_kernel] unset, when the
    benchmark of every supplied closure returns a duration, [do_bench]
    is called with [rep=40] and [fast_flush=True] once on each closure
    in the given order, one duration per closure, and [picked_kernel]
    becomes the index of the least duration, the first such index
    among equals; it is 0 when all durations are equal. *)
Theorem first_call_selection self calls s ts w1 :
  picked_kernel self = None →
  calls ≠ [] →
  benchmarked do_bench calls (world s) ts w1 →
  ∃ i, picked_kernel (run self calls s).1.2 = Some i
    ∧ stable_argmin ts i
    ∧ length ts = length calls
    ∧ trace (run self calls s).2
      = trace s ++ bench_events 0 (length calls) ++ [EvCall i]
    ∧ ((∀ t t', t ∈ ts → t' ∈ ts → (t == t')%Q) → i = 0%nat).
Proof.
  intros Hp Hne Hb.
  destruct (run_undecided do_bench self calls s ts w1 Hp Hne Hb)
    as (i & c & Harg & Hc & Hrun).
  exists i. rewrite Hrun. simpl. split_and!; try done.
  - by eapply benchmarked_length.
  - by apply stable_argmin_equal.
Qed.

(** C9. On an invocation that finds [picked_kernel] unset, when the
    benchmark of a candidate raises, the invocation raises the same
    exception, the candidates after it are not benchmarked, no closure
    is dispatched, and the object is as it was: [picked_kernel] is
    still unset. *)
Theorem benchmark_failure_atomic self pre c post s ts w1 e w2 :
  picked_kernel self = None →
  benchmarked do_bench pre (world s) ts w1 →
  do_bench c 40 true w1 = (Raise e, w2) →
  run self (pre ++ c :: post) s
    = (Raise e, self,
       {| world := w2; trace := trace s ++ bench_events 0 (S (length pre)) |})
  ∧ picked_kernel (run self (pre ++ c :: post) s).1.2 = None.
Proof.
  intros Hp Hb Hraise.
  assert (Hrun : run self (pre ++ c :: post) s
            = (Raise e, self,
               {| world := w2;
                  trace := trace s ++ bench_events 0 (S (length pre)) |})).
  { unfold run_with_argless_kernels. rewrite Hp. unfold mbind, M_bind, lift.
    by rewrite (timings_from_Raise do_bench pre c post 0 s ts w1 e w2 Hb Hraise). }
  by rewrite Hrun.
Qed.

(** C10, as the code has it. An invocation on a non-empty list ends by
    calling exactly one of the supplied closures, the one at index
    [picked_kernel], in these two cases. Undecided, when the benchmark of
    every closure returns a duration: the index it picks is a valid index
    of the list, the closure there is called once, last, after the
    benchmarks, and every later invocation with a list of the same length
    calls the closure at that index of its list and nothing else.
    Decided, when the list has an element at the picked index: that
    closure is called, once, and nothing else. *)
Theorem dispatch_ends_with_picked_call self calls s :
  calls ≠ [] →
  (picked_kernel self = None →
   ∀ ts w1, benchmarked do_bench calls (world s) ts w1 →
     ∃ i c, (i < length calls)%nat
       ∧ calls !! i = Some c
       ∧ run self calls s
         = ((c w1).1, set_picked_kernel i self,
            {| world := (c w1).2;
               trace := trace s ++ bench_events 0 (length calls) ++ [EvCall i] |})
       ∧ picked_kernel (run self calls s).1.2 = Some i
       ∧ ∀ calls' s', length calls' = length calls →
           ∃ c', calls' !! i = Some c'
             ∧ run (run self calls s).1.2 calls' s'
               = ((c' (world s')).1, (run self calls s).1.2,
                  {| world := (c' (world s')).2;
                     trace := trace s' ++ [EvCall i] |}))
  ∧ (∀ i, picked_kernel self = Some i → (i < length calls)%nat →
       ∃ c, calls !! i = Some c
         ∧ run self calls s
           = ((c (world s)).1, self,
              {| world := (c (world s)).2; trace := trace s ++ [EvCall i] |})).
Proof.
  intros Hne. split.
  - intros Hp ts w1 Hb.
    destruct (run_undecided do_bench self calls s ts w1 Hp Hne Hb)
      as (i & c & Harg & Hc & Hrun).
    pose proof (lookup_lt_Some _ _ _ Hc) as Hlt.
    exists i, c. rewrite Hrun. simpl. split_and!; try done.
    intros calls' s' Hlen.
    destruct (lookup_lt_is_Some_2 calls' i) as [c' Hc']; [lia|].
    exists c'. split; [done|].
    rewrite (run_decided do_bench (set_picked_kernel i self) i calls' s' eq_refl).
    by rewrite (call_picked_Some _ _ _ _ Hc').
  - intros i Hp Hlt.
    destruct (lookup_lt_is_Some_2 calls i Hlt) as [c Hc].
    exists c. split; [done|].
    rewrite (run_decided do_bench self i calls s Hp).
    by rewrite (call_picked_Some _ _ _ _ Hc).
Qed.
End Selection.

(** ** Runs on the sample device *)

Example sample_first_call :
  run_with_argless_kernels sample_do_bench sample_runner sample_calls sample_rt
  = (Ok tt, set_picked_kernel 1 sample_runner,
     {| world := 7%nat;
        trace := [EvBench 0 40 true; EvBench 1 40 true; EvCall 1] |}).
Proof. vm_compute. reflexivity. Qed.


Lemma first_call_selection_witness :
  ∃ i, picked_kernel
         (run_with_argless_kernels sample_do_bench sample_runner sample_calls
            sample_rt).1.2 = Some i
    ∧ stable_argmin [inject_Z 5; inject_Z 1] i.
Proof.
  destruct (first_call_selection sample_do_bench sample_runner sample_calls
              sample_rt [inject_Z 5; inject_Z 1] 6%nat)
    as (i & Hi & Harg & _).
  - reflexivity.
  - discriminate.
  - simpl. exists 5%nat. split; [reflexivity|].
    exists 6%nat. split; reflexivity.
  - exists i. split; [exact Hi | exact Harg].
Defined.

Lemma benchmark_failure_atomic_witness :
  run_with_argless_kernels sample_do_bench sample_runner
    ([sample_call 5] ++ failing_call :: [sample_call 1]) sample_rt
  = (Raise (RuntimeError "launch failed"), sample_runner,
     {| world := 5%nat; trace := [EvBench 0 40 true; EvBench 1 40 true] |}).
Proof.
  destruct (benchmark_failure_atomic sample_do_bench sample_runner [sample_call 5]
              failing_call [sample_call 1] sample_rt [inject_Z 5] 5%nat
              (RuntimeError "launch failed") 5%nat) as [Hrun _].
  - reflexivity.
  - simpl. exists 5%nat. split; reflexivity.
  - reflexivity.
  - exact Hrun.
Defined.

Lemma dispatch_ends_with_picked_call_witness :
  ∃ i c, (i < length sample_calls)%nat
    ∧ sample_calls !! i = Some c
    ∧ run_with_argless_kernels sample_do_bench sample_runner sample_calls sample_rt
      = ((c 6%nat).1, set_picked_kernel i sample_runner,
         {| world := (c 6%nat).2;
            trace := [EvBench 0 40 true; EvBench 1 40 true] ++ [EvCall i] |}).
Proof.
  destruct (dispatch_ends_with_picked_call sample_do_bench sample_runner
              sample_calls sample_rt) as [Hfirst _].
  - discriminate.
  - destruct (Hfirst eq_refl [inject_Z 5; inject_Z 1] 6%nat)
      as (i & c & Hlt & Hc & Hrun & _).
    + simpl. exists 5%nat. split; [reflexivity|].
      exists 6%nat. split; reflexivity.
    + exists i, c. split; [exact Hlt|]. split; [exact Hc | exact Hrun].
Defined.

(** C10 fails as stated. On a non-empty list whose second closure fails
    in the benchmark, the undecided dispatcher raises after two
    benchmarks and calls no closure; and a dispatcher that has picked
    index 1, given a non-empty list of one closure, raises [IndexError]
    and calls no closure either. *)
Lemma dispatch_counterexample :
  [sample_call 5; failing_call; sample_call 1] ≠ []
  ∧ run_with_argless_kernels sample_do_bench sample_runner
      [sample_call 5; failing_call; sample_call 1] sample_rt
    = (Raise (RuntimeError "launch failed"), sample_runner,
       {| world := 5%nat; trace := [EvBench 0 40 true; EvBench 1 40 true] |})
  ∧ picked_kernel sample_decided = Some 1%nat
  ∧ [sample_call 5] ≠ []
  ∧ run_with_argless_kernels sample_do_bench sample_decided [sample_call 5]
      sample_rt
    = (Raise IndexError, sample_decided, {| world := 0%nat; trace := [] |}).
Proof.
  split_and!; try discriminate; vm_compute; reflexivity.
Qed.


(** ** The registry over time *)

(** The five ways through [define_kernel]. *)
Lemma define_kernel_step w kernels :
  (∃ name, registry w !! group_key kernels = Some name
           ∧ define_kernel w kernels = (Ok name, w))
  ∨ (registry w !! group_key kernels = None ∧ kernels = []
     ∧ define_kernel w kernels = (Raise IndexError, w))
  ∨ (∃ first, registry w !! group_key kernels = None
       ∧ first_name kernels = Some first
       ∧ (multi_kernel_prefix +:+ first ∈ assigned_names w)
       ∧ define_kernel w kernels = (Raise AssertionError, w))
  ∨ (∃ first, registry w !! group_key kernels = None
       ∧ first_name kernels = Some first
       ∧ (multi_kernel_prefix +:+ first ∉ assigned_names w)
       ∧ length kernels = 1%nat
       ∧ (define_kernel w kernels
          = (Raise IndexError,
             record_name (multi_kernel_prefix +:+ first) kernels w)))
  ∨ (∃ first g, registry w !! group_key kernels = None
       ∧ first_name kernels = Some first
       ∧ (multi_kernel_prefix +:+ first ∉ assigned_names w)
       ∧ (2 ≤ length kernels)%nat
       ∧ src_code_glue kernels = Ok g
       ∧ (define_kernel w kernels
          = (Ok (multi_kernel_prefix +:+ first),
             record_dispatcher (multi_kernel_prefix +:+ first) kernels g w))).
Proof.
  destruct (registry w !! group_key kernels) as [name|] eqn:Hreg.
  { left. exists name. split; [done|]. by apply define_kernel_registered. }
  right. destruct (first_name kernels) as [first|] eqn:Hfirst; cycle 1.
  { left. destruct kernels; [|done]. split_and!; [done | done |].
    by apply define_kernel_empty. }
  right.
  destruct (decide (multi_kernel_prefix +:+ first ∈ assigned_names w)) as [Hused|Hfree].
  { left. exists first. split_and!; try done. by eapply define_kernel_collision. }
  right. rewrite (define_kernel_fresh _ _ _ Hreg Hfirst Hfree).
  destruct (decide (2 ≤ length kernels)%nat) as [Hlen|Hlen].
  - right. destruct (src_code_glue_two kernels Hlen) as [g Hg].
    exists first, g. rewrite Hg. split_and!; done.
  - left. exists first. rewrite src_code_glue_short by lia.
    split_and!; try done. destruct kernels as [|? [|? ?]]; simpl in *; [done | done | lia].
Qed.

Lemma registry_record_name name kernels w :
  registry (record_name name kernels w) = <[group_key kernels := name]> (registry w).
Proof. done. Qed.

Lemma assigned_record_name name kernels w :
  assigned_names (record_name name kernels w) = assigned_names w ∪ {[name]}.
Proof. done. Qed.

Lemma define_kernel_extends w kernels : extends w (define_kernel w kernels).2.
Proof.
  assert (Hsame : extends w w).
  { split_and!; [done | done |]. exists []. split; [by rewrite app_nil_r | by left]. }
  destruct (define_kernel_step w kernels)
    as [(name & _ & ->)|[(_ & _ & ->)|[(first & _ & _ & _ & ->)
       |[(first & Hreg & _ & _ & _ & ->)|(first & g & Hreg & _ & _ & _ & _ & ->)]]]];
    simpl; try done.
  - split_and!.
    + intros key name Hkey. rewrite registry_record_name.
      rewrite lookup_insert_ne; [done | congruence].
    + intros name Hname. rewrite assigned_record_name. set_solver.
    + exists []. split; [by rewrite app_nil_r | by left].
  - split_and!.
    + intros key name Hkey. unfold registry at 1. simpl.
      rewrite lookup_insert_ne; [done | congruence].
    + intros name Hname. unfold assigned_names at 1. simpl. set_solver.
    + eexists. split; [done | by right].
Qed.

Lemma define_kernels_keeps groups w key name :
  registry w !! key = Some name →
  registry (define_kernels w groups).2 !! key = Some name.
Proof.
  revert w. induction groups as [|kernels rest IH]; intros w Hkey; [done|].
  simpl. pose proof (define_kernel_extends w kernels) as (Hkeep & _).
  destruct (define_kernel w kernels) as [r w1]. simpl in *.
  specialize (IH w1 (Hkeep _ _ Hkey)).
  by destruct (define_kernels w1 rest).
Qed.

Lemma registry_fresh key : registry wrapper_init !! key = None.
Proof. apply lookup_empty. Qed.

Lemma registry_inv_fresh : registry_inv wrapper_init.
Proof.
  split_and!.
  - intros key name Hkey. by rewrite registry_fresh in Hkey.
  - intros name. split.
    + intros Hin. by apply not_elem_of_empty in Hin.
    + intros [key Hkey]. by rewrite registry_fresh in Hkey.
  - intros key key' name Hkey. by rewrite registry_fresh in Hkey.
  - intros key name Hkey. by rewrite registry_fresh in Hkey.
Qed.

Lemma registry_inv_record w kernels first hdr :
  registry_inv w →
  registry w !! group_key kernels = None →
  first_name kernels = Some first →
  multi_kernel_prefix +:+ first ∉ assigned_names w →
  (∀ block, block ∈ header w → block ∈ hdr) →
  ((2 ≤ length kernels)%nat →
     header_open (multi_kernel_prefix +:+ first) (group_key kernels) ∈ hdr) →
  registry_inv
    {| header := hdr;
       multi_kernel_state :=
         multi_kernel_state (record_name (multi_kernel_prefix +:+ first) kernels w) |}.
Proof.
  intros (Hder & Hrec & Huni & Hdef) Hreg Hfirst Hfree Hold Hnew.
  remember (multi_kernel_prefix +:+ first) as name eqn:Hname.
  assert (Hlook : ∀ key n,
            <[group_key kernels := name]> (registry w) !! key = Some n →
            (key = group_key kernels ∧ n = name)
            ∨ (key ≠ group_key kernels ∧ registry w !! key = Some n)).
  { intros key n Hkey. apply lookup_insert_Some in Hkey. naive_solver. }
  assert (Hnot : ∀ key, registry w !! key ≠ Some name).
  { intros key Hkey. apply Hfree, Hrec. eauto. }
  split_and!.
  - intros key n Hkey. apply Hlook in Hkey as [[-> ->]|[_ Hkey]]; [eauto | eauto].
  - intros n. unfold assigned_names, registry. simpl.
    fold (registry w) (assigned_names w). rewrite elem_of_union, elem_of_singleton.
    split.
    + intros [Hin| ->].
      * destruct (proj1 (Hrec n) Hin) as [key Hkey]. exists key.
        rewrite lookup_insert_ne; [done | congruence].
      * exists (group_key kernels). apply lookup_insert_eq.
    + intros [key Hkey]. apply Hlook in Hkey as [[_ ->]|[_ Hkey]]; [by right|].
      left. apply Hrec. eauto.
  - intros key key' n Hkey Hkey'.
    apply Hlook in Hkey as [[Hk Hn]|[_ Hkey]];
      apply Hlook in Hkey' as [[Hk' Hn']|[_ Hkey']].
    + congruence.
    + subst n. by destruct (Hnot key').
    + subst n. by destruct (Hnot key).
    + by eapply Huni.
  - intros key n Hkey Hlen. simpl.
    apply Hlook in Hkey as [[-> ->]|[_ Hkey]].
    + apply Hnew. unfold group_key in Hlen. by rewrite length_map in Hlen.
    + apply Hold. by apply Hdef.
Qed.

Lemma define_kernel_inv w kernels :
  registry_inv w → registry_inv (define_kernel w kernels).2.
Proof.
  intros Hinv.
  destruct (define_kernel_step w kernels)
    as [(name & _ & ->)|[(_ & _ & ->)|[(first & _ & _ & _ & ->)
       |[(first & Hreg & Hfirst & Hfree & Hlen & ->)
        |(first & g & Hreg & Hfirst & Hfree & Hlen & _ & ->)]]]];
    simpl; try done.
  - apply (registry_inv_record w kernels first (header w)); try done. lia.
  - apply (registry_inv_record w kernels first); try done.
    + intros block Hin. apply elem_of_app. by left.
    + intros _. apply elem_of_app. right. unfold dispatcher_block. by left.
Qed.

Lemma define_kernels_inv groups w :
  registry_inv w → registry_inv (define_kernels w groups).2.
Proof.
  revert w. induction groups as [|kernels rest IH]; intros w Hinv; [done|].
  simpl. pose proof (define_kernel_inv w kernels Hinv) as Hinv'.
  destruct (define_kernel w kernels) as [r w1]. simpl in *.
  specialize (IH w1 Hinv'). by destruct (define_kernels w1 rest).
Qed.

Lemma define_kernels_extends groups w :
  let w' := (define_kernels w groups).2 in
  (∀ name, name ∈ assigned_names w → name ∈ assigned_names w')
  ∧ ∃ blocks n, header w' = header w ++ blocks ∧ length blocks = (3 * n)%nat.
Proof.
  revert w. induction groups as [|kernels rest IH]; intros w; simpl.
  - split; [done|]. exists [], 0%nat. by rewrite app_nil_r.
  - pose proof (define_kernel_extends w kernels) as (_ & Hnames & blocks & Hhdr & Hlen).
    destruct (define_kernel w kernels) as [r w1]. simpl in *.
    destruct (IH w1) as (Hnames' & blocks' & n & Hhdr' & Hlen').
    destruct (define_kernels w1 rest) as [rs w2]. simpl in *.
    split; [by eauto|].
    rewrite Hhdr', Hhdr, <- app_assoc.
    destruct Hlen as [-> | Hlen].
    + exists blocks', n. done.
    + exists (blocks ++ blocks'), (S n). split; [done|].
      rewrite length_app. lia.
Qed.

(** X1. Registrations only accumulate: over any run of [define_kernel]
    calls, from any wrapper state, every registration and every used name
    stays as it is, and the header keeps what it held and grows by whole
    blocks of three splices. *)
Theorem registry_accumulates (w : wrapper_code) (groups : list (list kernel)) :
  let w' := (define_kernels w groups).2 in
  (∀ key name, registry w !! key = Some name → registry w' !! key = Some name)
  ∧ (∀ name, name ∈ assigned_names w → name ∈ assigned_names w')
  ∧ ∃ blocks n, header w' = header w ++ blocks ∧ length blocks = (3 * n)%nat.
Proof.
  intros w'. subst w'. split.
  - intros key name. apply define_kernels_keeps.
  - apply define_kernels_extends.
Qed.

Lemma registry_accumulates_witness :
  registry (define_kernels (define_kernel wrapper_init [k1; k2]).2 [[k2; k3]]).2
    !! ["k1"; "k2"] = Some "multi_kernel_k1".
Proof.
  apply (registry_accumulates (define_kernel wrapper_init [k1; k2]).2 [[k2; k3]]).
  vm_compute. reflexivity.
Defined.

(** X2. On a wrapper that started fresh, after any run of [define_kernel]
    calls, the dispatcher name of a registered tuple is [multi_kernel_]
    followed by the first name of the tuple, and the used names are
    exactly the registered dispatcher names. *)
Theorem dispatcher_names_derived (groups : list (list kernel)) :
  let w := (define_kernels wrapper_init groups).2 in
  (∀ key name, registry w !! key = Some name →
     ∃ first, key !! 0%nat = Some first ∧ name = "multi_kernel_" +:+ first)
  ∧ (∀ name, name ∈ assigned_names w ↔ ∃ key, registry w !! key = Some name).
Proof.
  intros w.
  destruct (define_kernels_inv groups wrapper_init registry_inv_fresh)
    as (Hder & Hrec & _).
  split; [apply Hder | apply Hrec].
Qed.

Lemma dispatcher_names_derived_witness :
  ∃ first, ["k2"; "k1"] !! 0%nat = Some first
           ∧ "multi_kernel_k2" = "multi_kernel_" +:+ first.
Proof.
  apply (proj1 (dispatcher_names_derived [[k1; k2]; [k2; k1]]) ["k2"; "k1"]).
  vm_compute. reflexivity.
Defined.

(** X3. On a wrapper that started fresh, no two registered tuples ever
    share a dispatcher name. *)
Theorem dispatcher_names_unique (groups : list (list kernel))
    (key key' : list string) (name : string) :
  let w := (define_kernels wrapper_init groups).2 in
  registry w !! key = Some name →
  registry w !! key' = Some name →
  key = key'.
Proof.
  intros w.
  destruct (define_kernels_inv groups wrapper_init registry_inv_fresh)
    as (_ & _ & Huni & _).
  apply Huni.
Qed.

Lemma dispatcher_names_unique_witness : ["k1"; "k2"] = ["k1"; "k2"].
Proof.
  apply (dispatcher_names_unique [[k1; k2]; [k1; k3]] ["k1"; "k2"] ["k1"; "k2"]
           "multi_kernel_k1"); vm_compute; reflexivity.
Defined.

(** X4. On a wrapper that started fresh, every registered tuple of two or
    more kernel names has the opening block of its dispatcher, the one
    that binds the dispatcher name to [MultiKernelCall] over these
    kernels, in the header. *)
Theorem dispatchers_in_header (groups : list (list kernel))
    (key : list string) (name : string) :
  let w := (define_kernels wrapper_init groups).2 in
  registry w !! key = Some name →
  (2 ≤ length key)%nat →
  header_open name key ∈ header w.
Proof.
  intros w.
  destruct (define_kernels_inv groups wrapper_init registry_inv_fresh)
    as (_ & _ & _ & Hdef).
  apply Hdef.
Qed.

Lemma dispatchers_in_header_witness :
  header_open "multi_kernel_k2" ["k2"; "k1"]
  ∈ header (define_kernels wrapper_init [[k1; k2]; [k2; k1]]).2.
Proof.
  apply (dispatchers_in_header [[k1; k2]; [k2; k1]] ["k2"; "k1"] "multi_kernel_k2").
  - vm_compute. reflexivity.
  - simpl. lia.
Defined.

(** X5. [define_kernel] raises in three cases only. The name assertion
    fails when the tuple is new and its synthesized name is taken, and
    the empty list raises [IndexError]; both leave the wrapper as it was.
    A one-kernel list whose name is free raises [IndexError] after the
    name has been recorded. *)
Theorem define_kernel_raises (w : wrapper_code) (kernels : list kernel) (e : exn) :
  (define_kernel w kernels).1 = Raise e →
  (e = AssertionError ∧ (define_kernel w kernels).2 = w
   ∧ registry w !! group_key kernels = None
   ∧ ∃ first, first_name kernels = Some first
              ∧ "multi_kernel_" +:+ first ∈ assigned_names w)
  ∨ (e = IndexError ∧ (define_kernel w kernels).2 = w ∧ kernels = [])
  ∨ (e = IndexError ∧ length kernels = 1%nat
     ∧ ∃ first, first_name kernels = Some first
                ∧ (define_kernel w kernels).2
                  = record_name ("multi_kernel_" +:+ first) kernels w).
Proof.
  destruct (define_kernel_step w kernels)
    as [(name & _ & ->)|[(_ & -> & ->)|[(first & Hreg & Hfirst & Hused & ->)
       |[(first & _ & Hfirst & _ & Hlen & ->)|(first & g & _ & _ & _ & _ & _ & ->)]]]];
    simpl; intros [= <-] || (intros ?; done).
  - right. left. done.
  - left. split_and!; try done. eauto.
  - right. right. split_and!; try done. eauto.
Qed.

Lemma define_kernel_raises_witness :
  (define_kernel (define_kernel wrapper_init [k1; k2]).2 [k1; k3]).2
  = (define_kernel wrapper_init [k1; k2]).2.
Proof.
  destruct (define_kernel_raises (define_kernel wrapper_init [k1; k2]).2 [k1; k3]
              AssertionError) as [(_ & Hsame & _)|[(He & _)|(He & _)]].
  - vm_compute. reflexivity.
  - exact Hsame.
  - discriminate He.
  - discriminate He.
Defined.

(** X6. A one-kernel list is recorded before it fails: when its tuple is
    new and its name is free, [define_kernel] raises [IndexError] with
    the tuple registered, the name used and the header untouched, and a
    second call on the same list then returns the name without adding
    anything to the header. *)
Theorem define_kernel_single (w : wrapper_code) (k : kernel) :
  registry w !! [kernel_name k] = None →
  "multi_kernel_" +:+ kernel_name k ∉ assigned_names w →
  let name := "multi_kernel_" +:+ kernel_name k in
  let w1 := (define_kernel w [k]).2 in
  (define_kernel w [k]).1 = Raise IndexError
  ∧ registry w1 !! [kernel_name k] = Some name
  ∧ name ∈ assigned_names w1
  ∧ header w1 = header w
  ∧ define_kernel w1 [k] = (Ok name, w1).
Proof.
  intros Hreg Hfree name w1. subst name w1.
  rewrite (define_kernel_fresh w [k] (kernel_name k) Hreg eq_refl Hfree).
  rewrite src_code_glue_short by (simpl; lia). simpl.
  assert (Hnow : registry
            (set_state
               {| subkernel_to_kernel_name :=
                    <[group_key [k] := multi_kernel_prefix +:+ kernel_name k]>
                      (registry w);
                  used_names :=
                    assigned_names w ∪ {[multi_kernel_prefix +:+ kernel_name k]} |}
               w) !! group_key [k]
          = Some (multi_kernel_prefix +:+ kernel_name k)).
  { unfold registry at 1. simpl. apply lookup_insert_eq. }
  split_and!; [done | exact Hnow | | done | by apply define_kernel_registered].
  unfold assigned_names at 1. simpl. apply elem_of_union. right.
  by apply elem_of_singleton.
Qed.

Lemma define_kernel_single_witness :
  (define_kernel wrapper_init [k1]).1 = Raise IndexError
  ∧ define_kernel (define_kernel wrapper_init [k1]).2 [k1]
    = (Ok "multi_kernel_k1", (define_kernel wrapper_init [k1]).2).
Proof.
  destruct (define_kernel_single wrapper_init k1) as (Hraise & _ & _ & _ & Hagain).
  - vm_compute. reflexivity.
  - apply not_elem_of_empty.
  - split; [exact Hraise | exact Hagain].
Defined.

(** X7. A dispatcher name, once returned, is what the registry answers
    from then on: after any further [define_kernel] calls, a call with a
    list of the same name tuple returns that name and changes nothing. *)
Theorem define_kernel_name_persists (w : wrapper_code)
    (kernels kernels' : list kernel) (name : string)
    (groups : list (list kernel)) :
  (define_kernel w kernels).1 = Ok name →
  group_key kernels' = group_key kernels →
  let w1 := (define_kernels (define_kernel w kernels).2 groups).2 in
  define_kernel w1 kernels' = (Ok name, w1).
Proof.
  intros Hret Hkey w1. subst w1.
  apply define_kernel_registered. rewrite Hkey. apply define_kernels_keeps.
  destruct (define_kernel_outcome w kernels)
    as [(name' & Hreg & Hname)|(_ & _ & e & He)]; [|congruence].
  by rewrite (Hname _ Hret).
Qed.

Lemma define_kernel_name_persists_witness :
  let w1 := (define_kernels (define_kernel wrapper_init [k1; k2]).2 [[k2; k3]]).2 in
  define_kernel w1 [k1; k2] = (Ok "multi_kernel_k1", w1).
Proof.
  apply (define_kernel_name_persists wrapper_init [k1; k2] [k1; k2]
           "multi_kernel_k1" [[k2; k3]]).
  - vm_compute. reflexivity.
  - reflexivity.
Defined.

(** ** More on the union of names *)

Lemma add_keys_extends l seen : ∃ tail, add_keys l seen = seen ++ tail.
Proof.
  revert seen. induction l as [|k l IH]; intros seen.
  - exists []. unfold add_keys. simpl. by rewrite app_nil_r.
  - unfold add_keys in *. simpl. destruct (IH (add_key seen k)) as [tail ->].
    unfold add_key. case_decide; [by eauto|].
    exists (k :: tail). by rewrite <- app_assoc.
Qed.

Lemma add_keys_tail l seen :
  NoDup seen →
  ∃ tail, add_keys l seen = seen ++ tail
          ∧ NoDup tail
          ∧ ∀ x, x ∈ tail ↔ x ∈ l ∧ x ∉ seen.
Proof.
  intros Hnd. destruct (add_keys_extends l seen) as [tail Htail].
  pose proof (NoDup_add_keys l seen Hnd) as Hnd'. rewrite Htail in Hnd'.
  apply NoDup_app in Hnd' as (_ & Hdisj & Hnd_tail).
  exists tail. split_and!; [done | done |]. intros x. split.
  - intros Hx. split; [|intros Hseen; by apply (Hdisj x)].
    assert (Hin : x ∈ add_keys l seen) by (rewrite Htail; apply elem_of_app; by right).
    apply elem_of_add_keys in Hin as [Hseen|Hl]; [|done]. by destruct (Hdisj x).
  - intros [Hl Hseen].
    assert (Hin : x ∈ add_keys l seen) by (apply elem_of_add_keys; by right).
    rewrite Htail in Hin. apply elem_of_app in Hin as [?|?]; done.
Qed.

Lemma add_keys_NoDup_id l seen : NoDup (seen ++ l) → add_keys l seen = seen ++ l.
Proof.
  revert seen. induction l as [|k l IH]; intros seen Hnd.
  - unfold add_keys. simpl. by rewrite app_nil_r.
  - unfold add_keys in *. simpl.
    assert (Hk : k ∉ seen).
    { apply NoDup_app in Hnd as (_ & Hdisj & _). intros Hk.
      apply (Hdisj k Hk). by left. }
    unfold add_key. rewrite decide_False by done.
    rewrite IH by (by rewrite <- app_assoc). by rewrite <- app_assoc.
Qed.

(** X8. Appending kernels to a group only appends names to the union of
    its argument names: the union over the longer list starts with the
    union over the shorter one, followed, without repetition, by exactly
    the new kernels' argument names that were not in it. *)
Theorem union_grows_at_the_end (kernels more : list kernel) :
  ∃ tail,
    get_all_kernel_argdefs (kernels ++ more)
      = get_all_kernel_argdefs kernels ++ tail
    ∧ NoDup tail
    ∧ ∀ x, x ∈ tail ↔
        (∃ k, k ∈ more ∧ x ∈ get_kernel_argdefs k)
        ∧ x ∉ get_all_kernel_argdefs kernels.
Proof.
  rewrite !get_all_kernel_argdefs_add_keys, map_app, concat_app, add_keys_app.
  destruct (add_keys_tail (concat (map get_kernel_argdefs more))
              (add_keys (concat (map get_kernel_argdefs kernels)) []))
    as (tail & Htail & Hnd & Hin).
  { apply NoDup_add_keys, NoDup_nil_2. }
  exists tail. split_and!; [done | done |].
  intros x. rewrite Hin, elem_of_concat. split.
  - intros [(l & Hl & Hx) Hnew]. split; [|done].
    apply list_elem_of_In, in_map_iff in Hl as (k & <- & Hk).
    exists k. split; [by apply list_elem_of_In | done].
  - intros [(k & Hk & Hx) Hnew]. split; [|done].
    exists (get_kernel_argdefs k). split; [by apply elem_of_map | done].
Qed.

(** X9. The union over no kernels is empty, and a first kernel whose
    argument names are free of duplicates leads the union: the union over
    that kernel alone is its argument list, and the union over any group
    starts with it. *)
Theorem first_kernel_leads_union (k : kernel) (kernels : list kernel) :
  get_all_kernel_argdefs [] = []
  ∧ (NoDup (get_kernel_argdefs k) →
       get_all_kernel_argdefs [k] = get_kernel_argdefs k
       ∧ ∃ tail, get_all_kernel_argdefs (k :: kernels) = get_kernel_argdefs k ++ tail).
Proof.
  split; [done|]. intros Hnd.
  assert (Hone : get_all_kernel_argdefs [k] = get_kernel_argdefs k).
  { rewrite get_all_kernel_argdefs_add_keys. simpl. rewrite app_nil_r.
    by rewrite add_keys_NoDup_id. }
  split; [done|].
  rewrite <- Hone, !get_all_kernel_argdefs_add_keys. simpl.
  rewrite app_nil_r, add_keys_app. apply add_keys_extends.
Qed.

Lemma first_kernel_leads_union_witness :
  get_all_kernel_argdefs [k2] = ["in_ptr0"; "out_ptr1"; "out_ptr0"].
Proof.
  apply (proj2 (first_kernel_leads_union k2 [])).
  vm_compute. repeat (apply NoDup_cons; split; [|]); try apply NoDup_nil_2;
    intros Hin; repeat (apply elem_of_cons in Hin as [Hin|Hin]; [discriminate|]);
    by apply elem_of_nil in Hin.
Defined.

(** X10. The glue only names what its entry point binds: every argument
    name a closure passes is a parameter of [run], the first closure
    passes exactly the iteration-size names that [run] declares, and so
    does every closure when the second kernel has the iteration-size
    names of the first. *)
Theorem glue_names_in_scope (kernels : list kernel) (g : glue) :
  src_code_glue kernels = Ok g →
  (∀ c a, c ∈ closures g → a ∈ closure_args c → a ∈ run_args g)
  ∧ (∀ c, closures g !! 0%nat = Some c → closure_numels c = run_numels g)
  ∧ (∀ k0 k1, kernels !! 0%nat = Some k0 → kernels !! 1%nat = Some k1 →
       get_numel_argdefs k1 = get_numel_argdefs k0 →
       ∀ c, c ∈ closures g → closure_numels c = run_numels g).
Proof.
  intros Hg. apply src_code_glue_Ok in Hg as (k0 & k1 & H0 & H1 & ->). simpl.
  assert (Hscope : ∀ k a, k ∈ kernels → a ∈ get_kernel_argdefs k →
            a ∈ get_all_kernel_argdefs kernels).
  { intros k a Hk Ha. rewrite get_all_kernel_argdefs_add_keys.
    apply elem_of_add_keys. right. apply elem_of_concat.
    exists (get_kernel_argdefs k). split; [by apply elem_of_map | done]. }
  split_and!.
  - intros c a Hc Ha.
    apply elem_of_cons in Hc as [->|Hc]; [|apply list_elem_of_singleton in Hc as ->];
      simpl in Ha.
    + apply (Hscope k0); [by eapply list_elem_of_lookup_2 | done].
    + apply (Hscope k1); [by eapply list_elem_of_lookup_2 | done].
  - by intros c [= <-].
  - intros k0' k1' H0' H1' Hsame c Hc.
    assert (k0' = k0) as -> by congruence. assert (k1' = k1) as -> by congruence.
    apply elem_of_cons in Hc as [->|Hc]; [done|].
    by apply list_elem_of_singleton in Hc as ->.
Qed.

Lemma glue_names_in_scope_witness :
  ∃ g, src_code_glue [k1; k2] = Ok g
       ∧ ∀ c a, c ∈ closures g → a ∈ closure_args c → a ∈ run_args g.
Proof.
  eexists. split; [reflexivity|].
  apply (glue_names_in_scope [k1; k2]). reflexivity.
Defined.

(** ** More on iteration-size names *)

Lemma string_length_app (s1 s2 : string) :
  String.length (s1 +:+ s2) = (String.length s1 + String.length s2)%nat.
Proof. induction s1 as [|a s1 IH]; simpl; [done | by rewrite IH]. Qed.

Lemma string_app_inj_r (s1 s2 t : string) : s1 +:+ t = s2 +:+ t → s1 = s2.
Proof.
  revert s2. induction s1 as [|a s1 IH]; intros [|b s2] Heq.
  - done.
  - apply (f_equal String.length) in Heq.
    rewrite !string_length_app in Heq. simpl in Heq. lia.
  - apply (f_equal String.length) in Heq.
    rewrite !string_length_app in Heq. simpl in Heq. lia.
  - change (String a (s1 +:+ t) = String b (s2 +:+ t)) in Heq.
    injection Heq as -> Heq. f_equal. by apply IH.
Qed.

Lemma numel_name_inj tree tree' :
  numel_name tree = numel_name tree' → prefix tree = prefix tree'.
Proof. unfold numel_name. apply string_app_inj_r. Qed.

Lemma elem_of_get_numel_argdefs k name :
  name ∈ get_numel_argdefs k ↔
  ∃ tree, tree ∈ range_trees k ∧ numel_included k tree ∧ name = numel_name tree.
Proof.
  unfold get_numel_argdefs. rewrite numel_loop. simpl.
  rewrite list_elem_of_In, in_map_iff. split.
  - intros (tree & <- & Hin). apply list_elem_of_In, list_elem_of_filter in Hin as [? ?].
    eauto.
  - intros (tree & Hin & Hinc & ->). exists tree. split; [done|].
    apply list_elem_of_In, list_elem_of_filter. done.
Qed.

(** X11. The reduction size is passed only inside a reduction:
    ["rnumel"] is among the names of [get_numel_argdefs] exactly when the
    kernel is inside a reduction and has a range tree with prefix ["r"];
    and the list is never longer than the list of range trees. *)
Theorem rnumel_only_inside_reduction (k : kernel) :
  ("rnumel" ∈ get_numel_argdefs k ↔
     inside_reduction k = true ∧ ∃ tree, tree ∈ range_trees k ∧ prefix tree = "r")
  ∧ (length (get_numel_argdefs k) ≤ length (range_trees k))%nat.
Proof.
  split.
  - rewrite elem_of_get_numel_argdefs. split.
    + intros (tree & Hin & Hinc & Hname).
      assert (Hr : prefix tree = "r").
      { symmetry. apply (numel_name_inj {| prefix := "r" |} tree). exact Hname. }
      split; [|by eauto]. destruct Hinc as [Hne|Hinside]; done.
    + intros (Hinside & tree & Hin & Hr). exists tree.
      split_and!; [done | by right |]. unfold numel_name. by rewrite Hr.
  - unfold get_numel_argdefs. rewrite numel_loop. simpl. rewrite length_map.
    apply length_filter.
Qed.

Lemma rnumel_only_inside_reduction_witness :
  "rnumel" ∈ get_numel_argdefs (kernel_x_r true).
Proof.
  apply (proj1 (rnumel_only_inside_reduction (kernel_x_r true))).
  split; [reflexivity|]. exists {| prefix := "r" |}.
  split; [|reflexivity]. simpl. apply elem_of_cons. right. by left.
Defined.

(** ** More on the run-time dispatcher *)

Lemma filter_is_bench_events i n :
  filter is_bench (bench_events i n) = bench_events i n.
Proof.
  unfold bench_events. revert i. induction n as [|n IH]; intros i; [done|].
  simpl. rewrite filter_cons_True by done. by rewrite IH.
Qed.

Section Retry.
Context {World Kernel RunEntry : Type}.
Variable do_bench : @kernel_call World → Z → bool → World → result Q * World.

Implicit Types (self : MultiKernelCall Kernel RunEntry) (s : rt World).
Implicit Types (calls : list (@kernel_call World)) (ts : list Q).
Implicit Types (c : @kernel_call World).
Implicit Types (invocations : list ((World → World) * list (@kernel_call World))).

Abbreviation run := (run_with_argless_kernels do_bench).

Lemma run_bench_raise self pre c post s ts w1 e w2 :
  picked_kernel self = None →
  benchmarked do_bench pre (world s) ts w1 →
  do_bench c 40 true w1 = (Raise e, w2) →
  run self (pre ++ c :: post) s
    = (Raise e, self,
       {| world := w2; trace := trace s ++ bench_events 0 (S (length pre)) |}).
Proof.
  intros Hp Hb Hraise. unfold run_with_argless_kernels. rewrite Hp.
  unfold mbind, M_bind, lift.
  by rewrite (timings_from_Raise do_bench pre c post 0 s ts w1 e w2 Hb Hraise).
Qed.

(** X12. Lists that are too short. An undecided dispatcher given no
    closures raises [ValueError], from [min] of no timings; a decided one
    given a list without the picked index raises [IndexError]. In both
    cases nothing is benchmarked or called and the object is unchanged. *)
Theorem run_on_short_list self calls s :
  (picked_kernel self = None →
     run_with_argless_kernels do_bench self [] s = (Raise ValueError, self, s))
  ∧ (∀ i, picked_kernel self = Some i → (length calls ≤ i)%nat →
       run_with_argless_kernels do_bench self calls s
         = (Raise IndexError, self, s)).
Proof.
  split.
  - intros Hp. unfold run_with_argless_kernels. by rewrite Hp.
  - intros i Hp Hlen. rewrite (run_decided do_bench self i calls s Hp).
    rewrite call_picked_None; [done|]. by apply lookup_ge_None.
Qed.

(** X13. A failed benchmarking pass is retried: after an invocation whose
    benchmarks raised, the next invocation whose benchmarks all return
    benchmarks every closure again, in order, picks the index of the
    least duration, the first among equals, and calls that closure. *)
Theorem benchmark_retry self pre c post s ts w1 e w2 calls' s' ts' w1' :
  picked_kernel self = None →
  benchmarked do_bench pre (world s) ts w1 →
  do_bench c 40 true w1 = (Raise e, w2) →
  calls' ≠ [] →
  benchmarked do_bench calls' (world s') ts' w1' →
  let self1 := (run self (pre ++ c :: post) s).1.2 in
  ∃ i, picked_kernel (run self1 calls' s').1.2 = Some i
    ∧ stable_argmin ts' i
    ∧ trace (run self1 calls' s').2
      = trace s' ++ bench_events 0 (length calls') ++ [EvCall i].
Proof.
  intros Hp Hb Hraise Hne Hb' self1. subst self1.
  rewrite (run_bench_raise self pre c post s ts w1 e w2 Hp Hb Hraise). simpl.
  destruct (run_undecided do_bench self calls' s' ts' w1' Hp Hne Hb')
    as (i & c' & Harg & _ & Hrun).
  exists i. rewrite Hrun. done.
Qed.

(** X14. Benchmarking is paid once: over a stretch of invocations that
    starts undecided and whose first invocation gets a duration for every
    closure, [do_bench] is called exactly once per closure of that first
    list, whatever lists the later invocations are given. *)
Theorem benchmarks_paid_once self between calls invocations s ts w1 :
  picked_kernel self = None →
  calls ≠ [] →
  benchmarked do_bench calls (between (world s)) ts w1 →
  filter is_bench
    (trace (run_many do_bench self ((between, calls) :: invocations) s).2)
  = filter is_bench (trace s) ++ bench_events 0 (length calls).
Proof.
  intros Hp Hne Hb. simpl.
  destruct (run_undecided do_bench self calls
              {| world := between (world s); trace := trace s |} ts w1 Hp Hne Hb)
    as (i & c & _ & _ & Hrun).
  rewrite Hrun. cbv beta iota. cbn [trace].
  destruct (run_many_decided do_bench (set_picked_kernel i self) i invocations
              {| world := (c w1).2;
                 trace := trace s ++ bench_events 0 (length calls) ++ [EvCall i] |}
              eq_refl) as [_ Htrace].
  rewrite Htrace. simpl.
  rewrite !filter_app, filter_is_bench_events, filter_is_bench_calls.
  rewrite (filter_cons_False _ (EvCall i)) by (intros []).
  by rewrite filter_nil, !app_nil_r.
Qed.
End Retry.

Lemma run_on_short_list_witness :
  run_with_argless_kernels sample_do_bench sample_decided [sample_call 5] sample_rt
  = (Raise IndexError, sample_decided, sample_rt).
Proof.
  apply (proj2 (run_on_short_list sample_do_bench sample_decided [sample_call 5]
                  sample_rt) 1%nat).
  - vm_compute. reflexivity.
  - simpl. lia.
Defined.

Lemma benchmark_retry_witness :
  ∃ i, picked_kernel
         (run_with_argless_kernels sample_do_bench
            (run_with_argless_kernels sample_do_bench sample_runner
               ([sample_call 5] ++ failing_call :: [sample_call 1]) sample_rt).1.2
            sample_calls sample_rt).1.2 = Some i
    ∧ stable_argmin [inject_Z 5; inject_Z 1] i.
Proof.
  destruct (benchmark_retry sample_do_bench sample_runner [sample_call 5]
              failing_call [sample_call 1] sample_rt [inject_Z 5] 5%nat
              (RuntimeError "launch failed") 5%nat sample_calls sample_rt
              [inject_Z 5; inject_Z 1] 6%nat) as (i & Hi & Harg & _).
  - reflexivity.
  - simpl. exists 5%nat. split; reflexivity.
  - reflexivity.
  - discriminate.
  - simpl. exists 5%nat. split; [reflexivity|]. exists 6%nat. split; reflexivity.
  - exists i. split; [exact Hi | exact Harg].
Defined.

Lemma benchmarks_paid_once_witness :
  filter is_bench
    (trace
       (run_many sample_do_bench sample_runner
          [(id, sample_calls); (id, sample_calls); (id, [sample_call 2])]
          sample_rt).2)
  = [EvBench 0 40 true; EvBench 1 40 true].
Proof.
  apply (benchmarks_paid_once sample_do_bench sample_runner id sample_calls
           [(id, sample_calls); (id, [sample_call 2])] sample_rt
           [inject_Z 5; inject_Z 1] 6%nat).
  - reflexivity.
  - discriminate.
  - simpl. exists 5%nat. split; [reflexivity|]. exists 6%nat. split; reflexivity.
Defined.


(** ** Waiting for the kernels *)

Section FutureLemmas.
Context {K F RunEntry : Type}.
Variable future_result : F → result K.

Implicit Types (slot : kernel_slot K F) (slots : list (kernel_slot K F)).
Implicit Types (self : MultiKernelCall (kernel_slot K F) RunEntry).

Lemma lookup_map {A B : Type} (f : A → B) (l : list A) i :
  map f l !! i = f <$> (l !! i).
Proof. revert i. induction l as [|x l IH]; intros [|i]; simpl; auto. Qed.

Lemma length_snoc slots slot : length (slots ++ [slot]) = S (length slots).
Proof. rewrite length_app. simpl. lia. Qed.

Lemma kernels_loop_resolves slots_done todo steps :
  Forall (resolves future_result) todo →
  (length todo ≤ steps)%nat →
  kernels_loop future_result steps (length slots_done) (slots_done ++ todo)
  = (Ok tt, slots_done ++ map (resolve_slot future_result) todo).
Proof.
  revert slots_done steps.
  induction todo as [|slot todo IH]; intros slots_done steps Hall Hlen.
  - rewrite !app_nil_r. destruct steps as [|steps]; simpl; [done|].
    by rewrite lookup_ge_None_2.
  - destruct steps as [|steps]; simpl in Hlen; [lia|]. simpl.
    rewrite list_lookup_middle by done.
    apply Forall_cons in Hall as [Hslot Hall].
    assert (Hnext : ∀ k,
              kernels_loop future_result steps (S (length slots_done))
                (slots_done ++ Compiled k :: todo)
              = (Ok tt, slots_done ++ Compiled k
                          :: map (resolve_slot future_result) todo)).
    { intros k. specialize (IH (slots_done ++ [Compiled k]) steps Hall).
      rewrite length_snoc, <- !app_assoc in IH. apply IH. lia. }
    destruct slot as [k|f]; simpl; [by apply Hnext|].
    destruct Hslot as [k Hk]. rewrite Hk.
    rewrite insert_app_r_alt by done. rewrite Nat.sub_diag. simpl.
    by apply Hnext.
Qed.

Lemma kernels_loop_raises slots_done pre f post steps e :
  Forall (resolves future_result) pre →
  future_result f = Raise e →
  (length (pre ++ TritonFuture f :: post) ≤ steps)%nat →
  kernels_loop future_result steps (length slots_done)
    (slots_done ++ pre ++ TritonFuture f :: post)
  = (Raise e,
     slots_done ++ map (resolve_slot future_result) pre ++ TritonFuture f :: post).
Proof.
  revert slots_done steps.
  induction pre as [|slot pre IH]; intros slots_done steps Hall Hf Hlen.
  - destruct steps as [|steps]; simpl in Hlen; [lia|]. simpl.
    rewrite list_lookup_middle by done. by rewrite Hf.
  - destruct steps as [|steps]; simpl in Hlen; [lia|]. simpl.
    rewrite list_lookup_middle by done.
    apply Forall_cons in Hall as [Hslot Hall].
    assert (Hnext : ∀ k,
              kernels_loop future_result steps (S (length slots_done))
                (slots_done ++ Compiled k :: pre ++ TritonFuture f :: post)
              = (Raise e,
                 slots_done ++ Compiled k
                   :: map (resolve_slot future_result) pre
                   ++ TritonFuture f :: post)).
    { intros k. specialize (IH (slots_done ++ [Compiled k]) steps Hall Hf).
      rewrite length_snoc, <- !app_assoc in IH. apply IH. lia. }
    destruct slot as [k|f']; simpl; [by apply Hnext|].
    destruct Hslot as [k Hk]. rewrite Hk.
    rewrite insert_app_r_alt by done. rewrite Nat.sub_diag. simpl.
    by apply Hnext.
Qed.

Lemma kernels_all_resolve self :
  Forall (resolves future_result) (_kernels self) →
  kernels future_result self
  = (Ok (map (resolve_slot future_result) (_kernels self)),
     set_kernels (map (resolve_slot future_result) (_kernels self)) self).
Proof.
  intros Hall. unfold kernels.
  by rewrite (kernels_loop_resolves [] (_kernels self) _ Hall).
Qed.

Lemma resolve_slot_compiled slots :
  Forall (resolves future_result) slots →
  Forall is_compiled (map (resolve_slot future_result) slots).
Proof.
  induction 1 as [|slot slots Hslot _ IH]; simpl; [done|].
  apply Forall_cons. split; [|done].
  destruct slot as [k|f]; simpl; [done|]. destruct Hslot as [k ->]. done.
Qed.

Lemma resolve_compiled_id slots :
  Forall is_compiled slots →
  Forall (resolves future_result) slots
  ∧ map (resolve_slot future_result) slots = slots.
Proof.
  induction 1 as [|slot slots Hslot _ [IH1 IH2]]; simpl; [done|].
  destruct slot as [k|f]; [|done]. simpl. split; [by apply Forall_cons|].
  by rewrite IH2.
Qed.
End FutureLemmas.

Section FutureProps.
Context {K F RunEntry : Type}.
Variable future_result : F → result K.

Implicit Types (slot : kernel_slot K F) (slots : list (kernel_slot K F)).
Implicit Types (self : MultiKernelCall (kernel_slot K F) RunEntry).

(** X15. Reading [kernels] when every pending compilation succeeds
    returns the list with each future replaced, in its position, by the
    kernel it compiled to: all slots are compiled, none has moved, the
    compiled ones are untouched, the object keeps the resolved list and
    its [picked_kernel]. *)
Theorem kernels_resolves_in_place self :
  Forall (resolves future_result) (_kernels self) →
  let slots := map (resolve_slot future_result) (_kernels self) in
  kernels future_result self = (Ok slots, set_kernels slots self)
  ∧ Forall is_compiled slots
  ∧ length slots = length (_kernels self)
  ∧ picked_kernel (kernels future_result self).2 = picked_kernel self
  ∧ (∀ i k, _kernels self !! i = Some (Compiled k) → slots !! i = Some (Compiled k))
  ∧ (∀ i f k, _kernels self !! i = Some (TritonFuture f) →
       future_result f = Ok k → slots !! i = Some (Compiled k)).
Proof.
  intros Hall slots. subst slots.
  rewrite (kernels_all_resolve future_result self Hall). simpl.
  split_and!; [done | by apply resolve_slot_compiled | by rewrite length_map | done | |].
  - intros i k Hi. by rewrite lookup_map, Hi.
  - intros i f k Hi Hk. rewrite lookup_map, Hi. simpl. by rewrite Hk.
Qed.

(** X16. Once [kernels] has been read with success, reading it again
    gives the same list and the same object and waits for no future:
    the outcome is the same whatever [result()] would answer. *)
Theorem kernels_read_again self (other : F → result K) :
  Forall (resolves future_result) (_kernels self) →
  kernels other (kernels future_result self).2 = kernels future_result self.
Proof.
  intros Hall. rewrite (kernels_all_resolve future_result self Hall). simpl.
  destruct (resolve_compiled_id other _ (resolve_slot_compiled future_result _ Hall))
    as [Hres Hid].
  unfold kernels. simpl.
  rewrite (kernels_loop_resolves other [] _ _ Hres) by done.
  by rewrite Hid.
Qed.

(** X17. When the compilation of a pending kernel fails, reading
    [kernels] raises that failure; the futures before it have been
    replaced by their kernels in the object, the failed future and the
    slots after it are as they were, and [picked_kernel] is untouched. *)
Theorem kernels_failure_keeps_progress self pre f post e :
  _kernels self = pre ++ TritonFuture f :: post →
  Forall (resolves future_result) pre →
  future_result f = Raise e →
  kernels future_result self
  = (Raise e,
     set_kernels (map (resolve_slot future_result) pre ++ TritonFuture f :: post) self).
Proof.
  intros Hks Hall Hf. unfold kernels. rewrite Hks.
  by rewrite (kernels_loop_raises future_result [] pre f post _ e Hall Hf).
Qed.
End FutureProps.

Lemma kernels_resolves_in_place_witness :
  (kernels sample_future_result
     (sample_pending [TritonFuture 1%nat; Compiled "k"; TritonFuture 2%nat])).1
  = Ok [Compiled "triton_0"; Compiled "k"; Compiled "triton_1"].
Proof.
  destruct (kernels_resolves_in_place sample_future_result
              (sample_pending [TritonFuture 1%nat; Compiled "k"; TritonFuture 2%nat]))
    as (Hread & _).
  - repeat (apply Forall_cons; split); simpl; eauto.
  - rewrite Hread. reflexivity.
Defined.

Lemma kernels_read_again_witness :
  kernels (fun _ => Raise ValueError)
    (kernels sample_future_result
       (sample_pending [TritonFuture 1%nat; Compiled "k"])).2
  = kernels sample_future_result (sample_pending [TritonFuture 1%nat; Compiled "k"]).
Proof.
  apply (kernels_read_again sample_future_result
           (sample_pending [TritonFuture 1%nat; Compiled "k"])).
  repeat (apply Forall_cons; split); simpl; eauto.
Defined.

Lemma kernels_failure_keeps_progress_witness :
  kernels sample_future_result
    (sample_pending [TritonFuture 1%nat; TritonFuture 0%nat; TritonFuture 2%nat])
  = (Raise (RuntimeError "compilation failed"),
     sample_pending [Compiled "triton_0"; TritonFuture 0%nat; TritonFuture 2%nat]).
Proof.
  rewrite (kernels_failure_keeps_progress sample_future_result
             (sample_pending
                [TritonFuture 1%nat; TritonFuture 0%nat; TritonFuture 2%nat])
             [TritonFuture 1%nat] 0%nat [TritonFuture 2%nat]
             (RuntimeError "compilation failed")).
  - reflexivity.
  - reflexivity.
  - repeat (apply Forall_cons; split); simpl; eauto.
  - reflexivity.
Defined.

(** ** The call site *)

Section CallSite.
Context {G D : Type}.
Variable add_numel_to_call_args_and_grid :
  kernel → list string → list G → list string * list G.
Variable current_device_index : D.

(** X18. The call site targets a defined dispatcher. For a [MultiKernel]
    built by its constructor on a wrapper that started fresh,
    [call_kernel] does not fail on [kernels[0]], and the call it emits
    names the dispatcher that the registry holds for the group and whose
    opening block is in the header; its arguments and grid are what
    [add_numel_to_call_args_and_grid] of the first kernel makes of the
    union of the call arguments and an empty grid. *)
Theorem call_kernel_targets_dispatcher (groups : list (list kernel))
    (kernels : list kernel) (self : MultiKernel.t) (w' : wrapper_code) :
  MultiKernel.init (define_kernels wrapper_init groups).2 kernels = (Ok self, w') →
  ∃ site k0,
    call_kernel add_numel_to_call_args_and_grid current_device_index self = Ok site
    ∧ site_name site = MultiKernel.kernel_name self
    ∧ registry w' !! group_key kernels = Some (site_name site)
    ∧ header_open (site_name site) (group_key kernels) ∈ header w'
    ∧ kernels !! 0%nat = Some k0
    ∧ (site_call_args site, site_grid site)
      = add_numel_to_call_args_and_grid k0 (call_kernel_all_call_args kernels) []
    ∧ site_device_index site = current_device_index.
Proof.
  intros Hinit. unfold MultiKernel.init in Hinit.
  destruct (decide (2 ≤ length kernels)%nat) as [Hlen|Hlen]; [|done].
  pose proof (define_kernel_inv _ kernels
                (define_kernels_inv groups wrapper_init registry_inv_fresh))
    as (_ & _ & _ & Hdef).
  pose proof (define_kernel_outcome (define_kernels wrapper_init groups).2 kernels)
    as Hout.
  destruct (define_kernel (define_kernels wrapper_init groups).2 kernels)
    as [[name|e] w1] eqn:Hdk; [|done].
  injection Hinit as <- <-. simpl in *.
  destruct Hout as [(name' & Hreg & Hname)|(_ & _ & e & He)]; [|done].
  rewrite <- (Hname name eq_refl) in Hreg.
  destruct kernels as [|k0 rest]; [simpl in Hlen; lia|].
  unfold call_kernel. simpl.
  destruct (add_numel_to_call_args_and_grid k0
              (call_kernel_all_call_args (k0 :: rest)) []) as [args grid] eqn:Hadd.
  eexists _, k0. split; [reflexivity|]. simpl.
  split_and!; try done.
  apply Hdef; [done|]. unfold group_key. simpl. rewrite length_map.
  simpl in Hlen. lia.
Qed.
End CallSite.

Lemma call_kernel_targets_dispatcher_witness :
  ∃ site,
    call_kernel sample_add_numel 0%Z
      {| MultiKernel.kernels := [k1; k2];
         MultiKernel.kernel_name := "multi_kernel_k1" |} = Ok site
    ∧ site_name site = "multi_kernel_k1".
Proof.
  destruct (call_kernel_targets_dispatcher sample_add_numel 0%Z [[k2; k3]] [k1; k2]
              {| MultiKernel.kernels := [k1; k2];
                 MultiKernel.kernel_name := "multi_kernel_k1" |}
              (define_kernel (define_kernels wrapper_init [[k2; k3]]).2 [k1; k2]).2)
    as (site & k0 & Hsite & Hname & _).
  - vm_compute. reflexivity.
  - exists site. split; [exact Hsite | exact Hname].
Defined.


(** ** Call arguments against parameters *)

Lemma add_keys_map (rename : string → string) l seen :
  (∀ a b, a ∈ seen ++ l → b ∈ seen ++ l → rename a = rename b → a = b) →
  add_keys (map rename l) (map rename seen) = map rename (add_keys l seen).
Proof.
  revert seen. induction l as [|k l IH]; intros seen Hinj; [done|].
  unfold add_keys in *. simpl.
  assert (Hstep : add_key (map rename seen) (rename k) = map rename (add_key seen k)).
  { unfold add_key. destruct (decide (k ∈ seen)) as [Hin|Hin].
    - rewrite decide_True; [done | by apply elem_of_map].
    - rewrite decide_False; [by rewrite map_app|].
      intros Hin'. apply list_elem_of_In, in_map_iff in Hin' as (a & Heq & Ha).
      apply list_elem_of_In in Ha. apply Hin.
      rewrite <- (Hinj a k); [done | | | done].
      + apply elem_of_app. by left.
      + apply elem_of_app. right. by left. }
  rewrite Hstep. apply IH. intros a b Ha Hb. apply Hinj.
  - apply elem_of_app in Ha as [Ha|Ha]; [|by apply elem_of_app; right; right].
    apply elem_of_add_key in Ha as [Ha| ->]; apply elem_of_app; [by left|].
    right. by left.
  - apply elem_of_app in Hb as [Hb|Hb]; [|by apply elem_of_app; right; right].
    apply elem_of_add_key in Hb as [Hb| ->]; apply elem_of_app; [by left|].
    right. by left.
Qed.

Lemma concat_map_map {A B : Type} (f : A → B) (ls : list (list A)) :
  concat (map (map f) ls) = map f (concat ls).
Proof. induction ls as [|l ls IH]; simpl; [done|]. by rewrite IH, map_app. Qed.

(** X19. Call arguments line up with parameters. When every kernel of a
    group is called on the arguments obtained from its parameter names by
    one renaming that keeps the group's parameter names apart, the union
    of call arguments built by [call_kernel] is the renaming of the union
    of parameter names built for the dispatcher, position by position. *)
Theorem call_args_line_up (rename : string → string) (kernels : list kernel) :
  (∀ a b, a ∈ concat (map get_kernel_argdefs kernels) →
          b ∈ concat (map get_kernel_argdefs kernels) →
          rename a = rename b → a = b) →
  (∀ k, k ∈ kernels → get_call_args k = map rename (get_kernel_argdefs k)) →
  call_kernel_all_call_args kernels = map rename (get_all_kernel_argdefs kernels).
Proof.
  intros Hinj Hcall.
  rewrite call_kernel_all_call_args_add_keys, get_all_kernel_argdefs_add_keys.
  assert (Hmap : map get_call_args kernels
                 = map (map rename) (map get_kernel_argdefs kernels)).
  { rewrite map_map. apply map_ext_in. intros k Hk. apply Hcall.
    by apply list_elem_of_In. }
  rewrite Hmap, concat_map_map.
  by apply (add_keys_map rename _ []).
Qed.

Lemma call_args_line_up_witness :
  call_kernel_all_call_args [on_buffers k1; on_buffers k2]
  = map buffer_of (get_all_kernel_argdefs [on_buffers k1; on_buffers k2]).
Proof.
  apply (call_args_line_up buffer_of [on_buffers k1; on_buffers k2]).
  - intros a b _ _. apply (inj (String.app "buf_")).
  - intros k Hk.
    apply elem_of_cons in Hk as [->|Hk]; [reflexivity|].
    apply list_elem_of_singleton in Hk as ->. reflexivity.
Defined.

(** ** Registering groups with distinct first kernels *)

Lemma define_kernels_all_registered groups seen w :
  registry_inv w →
  names_from seen w →
  NoDup (map first_name groups) →
  (∀ kernels, kernels ∈ groups → first_name kernels ∉ seen) →
  Forall (fun kernels => (2 ≤ length kernels)%nat) groups →
  Forall2 returns_dispatcher groups (define_kernels w groups).1
  ∧ length (header (define_kernels w groups).2)
    = (length (header w) + 3 * length groups)%nat.
Proof.
  revert seen w.
  induction groups as [|kernels rest IH]; intros seen w Hinv Hfrom Hnd Hnew Hlen.
  - simpl. split; [constructor | lia].
  - simpl in Hnd. apply NoDup_cons in Hnd as [Hhd Hnd].
    apply Forall_cons in Hlen as [Hlen Hlens].
    assert (Hfresh : first_name kernels ∉ seen) by (apply Hnew; by left).
    pose proof (define_kernel_inv w kernels Hinv) as Hinv'.
    pose proof (define_kernel_names_from seen w kernels Hfrom) as Hfrom'.
    assert (Hstep : ∃ first g,
              first_name kernels = Some first
              ∧ define_kernel w kernels
                = (Ok (multi_kernel_prefix +:+ first),
                   record_dispatcher (multi_kernel_prefix +:+ first) kernels g w)).
    { destruct Hinv as (Hder & Hrec & _ & _).
      destruct (define_kernel_step w kernels)
        as [(name & Hreg & _)|[(_ & -> & _)|[(first & _ & Hfirst & Hused & _)
           |[(first & _ & _ & _ & Hone & _)|(first & g & _ & Hfirst & _ & _ & _ & Hdk)]]]].
      - exfalso. destruct (Hder _ _ Hreg) as (first & Hfirst & ->).
        destruct (Hfrom (multi_kernel_prefix +:+ first)) as (first' & Heq & Hseen).
        { apply Hrec. eauto. }
        apply (inj (String.app multi_kernel_prefix)) in Heq as <-.
        apply Hfresh. unfold first_name. by rewrite Hfirst.
      - simpl in Hlen. lia.
      - exfalso. destruct (Hfrom _ Hused) as (first' & Heq & Hseen).
        apply (inj (String.app multi_kernel_prefix)) in Heq as <-.
        apply Hfresh. by rewrite Hfirst.
      - lia.
      - eauto. }
    destruct Hstep as (first & g & Hfirst & Hdk).
    simpl. rewrite Hdk in *. simpl in *.
    specialize (IH (first_name kernels :: seen) _ Hinv' Hfrom' Hnd).
    destruct IH as [IHres IHlen]; [|done|].
    { intros ks Hks. apply not_elem_of_cons. split.
      - intros Heq. apply Hhd. rewrite <- Heq. by apply elem_of_map.
      - apply Hnew. by right. }
    destruct (define_kernels _ rest) as [rs w2]. simpl in *.
    split.
    + constructor; [|done]. exists first. done.
    + rewrite IHlen, length_app. unfold dispatcher_block. simpl. lia.
Qed.

(** X20. On a fresh registry, groups of two or more kernels whose first
    kernel names are pairwise distinct are all registered: each call
    returns [multi_kernel_] followed by the group's first kernel name,
    and the header ends up with exactly three blocks per group. *)
Theorem distinct_groups_all_registered (groups : list (list kernel)) :
  NoDup (map first_name groups) →
  Forall (fun kernels => (2 ≤ length kernels)%nat) groups →
  Forall2 returns_dispatcher groups (define_kernels wrapper_init groups).1
  ∧ length (header (define_kernels wrapper_init groups).2)
    = (3 * length groups)%nat.
Proof.
  intros Hnd Hlen.
  apply (define_kernels_all_registered groups [] wrapper_init).
  - apply registry_inv_fresh.
  - intros n Hn. by apply not_elem_of_empty in Hn.
  - done.
  - intros ks _. apply not_elem_of_nil.
  - done.
Qed.

Lemma distinct_groups_all_registered_witness :
  length (header (define_kernels wrapper_init [[k1; k2]; [k2; k1]]).2) = 6%nat.
Proof.
  apply (distinct_groups_all_registered [[k1; k2]; [k2; k1]]).
  - vm_compute. apply NoDup_cons. split.
    + intros Hin. apply list_elem_of_singleton in Hin. discriminate.
    + apply NoDup_singleton.
  - repeat (apply Forall_cons; split); simpl; try lia. apply Forall_nil_2.
Defined.
